(** * The converter engine of the data registry

    A shallow embedding of [dataregistry/src/converters.ts]: the worklist
    loop [applyConverterDataset], which expands a seed dataset through a
    converter, and [combineManyConverters], which merges converters.

    - A JavaScript [Map] keeps its keys in insertion order and the engine
      iterates the seed in that order, so a dataset is an association list
      with the operations [has], [get] and [set] of [Map].
    - An array is a list in array order; [pop] removes its last element.
    - A converter may throw: it returns a [Result].
    - The [while] loop need not terminate (a converter can keep offering
      cheaper candidates), so it is iterated under a fuel bound.
    - Each call of the converter is recorded, in order, in a call log.
    - [Cost], the handle type [Observable] and [CachedObservable.from] are
      declared in modules that are not part of this file's source
      ([./datasets], [rxjs], [./cachedObservable]); they are parameters. *)

From Stdlib Require Import List String ZArith Bool Lia.
Import ListNotations.

Set Implicit Arguments.

(** ** Identifiers *)

Definition MimeType_ := string.
Definition URL_ := string.

(** ** Calls that may throw *)

Inductive Result (E A : Type) : Type :=
| Ok (a : A)
| Throw (e : E).

Arguments Ok {E A} a.
Arguments Throw {E A} e.

Definition bind {E A B} (m : Result E A) (k : A -> Result E B) : Result E B :=
  match m with
  | Ok a => k a
  | Throw e => Throw e
  end.

Notation "x <- m ;; k" := (bind m (fun x => k))
  (at level 61, m at next level, right associativity).

(** [xs.map(f)] for a callback that may throw: the elements are visited in
    order and the first failure ends the traversal. *)
Fixpoint Array_map {E A B} (f : A -> Result E B) (xs : list A)
  : Result E (list B) :=
  match xs with
  | [] => Ok []
  | x :: rest =>
      y <- f x ;;
      ys <- Array_map f rest ;;
      Ok (y :: ys)
  end.

(** [xs.pop()]: the last element and the array without it. *)
Fixpoint pop {A} (xs : list A) : option (A * list A) :=
  match xs with
  | [] => None
  | x :: rest =>
      match pop rest with
      | None => Some (x, [])
      | Some (y, rest') => Some (y, x :: rest')
      end
  end.

Section Converters.

(** The cost type with its comparison [<=], the data handles, the caching
    constructor [CachedObservable.from] and the values a converter can
    throw. *)
Variable Cost : Type.
Variable cost_le : Cost -> Cost -> bool.
Variable Observable : Type.
Variable CachedObservable_from : Observable -> Observable.
Variable Exn : Type.

(** ** Datasets: [Map<MimeType_, [Cost, CachedObservable<T>]>] *)

Definition Dataset := list (MimeType_ * (Cost * Observable)).

Fixpoint Map_get (m : Dataset) (key : MimeType_) : option (Cost * Observable) :=
  match m with
  | [] => None
  | (k, v) :: rest => if String.eqb k key then Some v else Map_get rest key
  end.

Definition Map_has (m : Dataset) (key : MimeType_) : bool :=
  match Map_get m key with
  | Some _ => true
  | None => false
  end.

(** [set] overwrites the value of a present key where it stands and
    appends a new key at the end. *)
Fixpoint Map_set (m : Dataset) (key : MimeType_) (value : Cost * Observable)
  : Dataset :=
  match m with
  | [] => [(key, value)]
  | (k, v) :: rest =>
      if String.eqb k key then (k, value) :: rest
      else (k, v) :: Map_set rest key value
  end.

(** A [Map] holds each key once. *)
Definition Map_wf (m : Dataset) : Prop := NoDup (map fst m).

(** The (mimetype -> cost) mapping of a dataset, in key order. *)
Definition costs (m : Dataset) : list (MimeType_ * Cost) :=
  map (fun kv => (fst kv, fst (snd kv))) m.

(** ** Entries and converters *)

(** An element of [toProcess], and a candidate returned by a converter. *)
Record Entry := { mimeType : MimeType_; cost : Cost; data : Observable }.

(** The argument object of a converter. *)
Record ConverterInput := {
  url : URL_;
  in_mimeType : MimeType_;
  in_cost : Cost;
  in_data : Observable
}.

Definition Converter := ConverterInput -> Result Exn (list Entry).

(** ** [applyConverterDataset] *)

Record LoopState := {
  toProcess : list Entry;
  processed : Dataset;
  calls : list ConverterInput
}.

(** What one evaluation of the loop condition and body does. *)
Inductive Iteration :=
| Exit
| Next (st : LoopState)
| Raise (e : Exn) (st : LoopState).

(** [processed.has(mimeType) && processed.get(mimeType)![0] <= cost] *)
Definition already_cheaper (processed : Dataset) (mimeType : MimeType_)
           (cost : Cost) : bool :=
  Map_has processed mimeType &&
  match Map_get processed mimeType with
  | Some (c, _) => cost_le c cost
  | None => false
  end.

(** The callback of [.map] on the converter's result. *)
Definition cache (c : Entry) : Entry :=
  {| mimeType := mimeType c;
     cost := cost c;
     data := CachedObservable_from (data c) |}.

Definition loop_body (u : URL_) (converter : Converter) (st : LoopState)
  : Iteration :=
  match pop (toProcess st) with
  | None => Exit
  | Some (e, rest) =>
      if already_cheaper (processed st) (mimeType e) (cost e) then
        Next {| toProcess := rest;
                processed := processed st;
                calls := calls st |}
      else
        let processed' :=
          Map_set (processed st) (mimeType e) (cost e, data e) in
        let arg := {| url := u;
                      in_mimeType := mimeType e;
                      in_cost := cost e;
                      in_data := data e |} in
        match converter arg with
        | Throw x =>
            Raise x {| toProcess := rest;
                       processed := processed';
                       calls := calls st ++ [arg] |}
        | Ok candidates =>
            Next {| toProcess := rest ++ map cache candidates;
                    processed := processed';
                    calls := calls st ++ [arg] |}
        end
  end.

(** How a call of [applyConverterDataset] ends: it returns the processed
    map, or a failure of the converter leaves it, or the loop is still
    running when the fuel is spent. *)
Inductive Completion :=
| Returned (ds : Dataset)
| Thrown (e : Exn)
| OutOfFuel.

Record Run := { invoked : list ConverterInput; completion : Completion }.

Fixpoint while_loop (fuel : nat) (u : URL_) (converter : Converter)
         (st : LoopState) : Run :=
  match fuel with
  | O => {| invoked := calls st; completion := OutOfFuel |}
  | S fuel' =>
      match loop_body u converter st with
      | Exit => {| invoked := calls st; completion := Returned (processed st) |}
      | Next st' => while_loop fuel' u converter st'
      | Raise x st' => {| invoked := calls st'; completion := Thrown x |}
      end
  end.

(** [[...dataset].map(([mimeType, [cost, data]]) => ({mimeType, cost, data}))] *)
Definition entries (dataset : Dataset) : list Entry :=
  map (fun kv => {| mimeType := fst kv;
                    cost := fst (snd kv);
                    data := snd (snd kv) |}) dataset.

Definition applyConverterDataset (fuel : nat) (u : URL_) (dataset : Dataset)
           (converter : Converter) : Run :=
  while_loop fuel u converter
             {| toProcess := entries dataset; processed := []; calls := [] |}.

(** ** [combineManyConverters] *)

Definition combineManyConverters (converters : list Converter) : Converter :=
  fun dataset =>
    lists <- Array_map (fun c => c dataset) converters ;;
    Ok (fold_left (fun l r => l ++ r) lists []).

(** ** [applyConverterDataset] on a store of [Map] objects

    The value-level loop above owns its processed map.  To state what the
    call does to the [Map] objects that exist around it, the same function is
    written once more over a store: a [Map] is a reference into a heap,
    [new Map()] allocates a reference that was not in use, and [set] writes
    the heap at the reference it is called on. *)

Definition Ref := nat.

Record Heap := { cells : Ref -> Dataset; next : Ref }.

(** [new Map()] *)
Definition Heap_new_Map (h : Heap) : Ref * Heap :=
  (next h,
   {| cells := fun r => if Nat.eqb r (next h) then [] else cells h r;
      next := S (next h) |}).

(** [m.set(key, value)] for the map at reference [m] *)
Definition Heap_Map_set (h : Heap) (m : Ref) (key : MimeType_)
           (value : Cost * Observable) : Heap :=
  {| cells := fun r =>
                if Nat.eqb r m then Map_set (cells h m) key value
                else cells h r;
     next := next h |}.

Record LoopStateRef := {
  toProcess_ref : list Entry;
  heap : Heap;
  calls_ref : list ConverterInput
}.

Inductive IterationRef :=
| ExitRef
| NextRef (st : LoopStateRef)
| RaiseRef (e : Exn) (st : LoopStateRef).

Definition loop_body_ref (u : URL_) (converter : Converter) (processed : Ref)
           (st : LoopStateRef) : IterationRef :=
  match pop (toProcess_ref st) with
  | None => ExitRef
  | Some (e, rest) =>
      if already_cheaper (cells (heap st) processed) (mimeType e) (cost e) then
        NextRef {| toProcess_ref := rest;
                   heap := heap st;
                   calls_ref := calls_ref st |}
      else
        let heap' :=
          Heap_Map_set (heap st) processed (mimeType e) (cost e, data e) in
        let arg := {| url := u;
                      in_mimeType := mimeType e;
                      in_cost := cost e;
                      in_data := data e |} in
        match converter arg with
        | Throw x =>
            RaiseRef x {| toProcess_ref := rest;
                          heap := heap';
                          calls_ref := calls_ref st ++ [arg] |}
        | Ok candidates =>
            NextRef {| toProcess_ref := rest ++ map cache candidates;
                       heap := heap';
                       calls_ref := calls_ref st ++ [arg] |}
        end
  end.

Inductive CompletionRef :=
| ReturnedRef (r : Ref)
| ThrownRef (e : Exn)
| OutOfFuelRef.

Record RunRef := {
  final_heap : Heap;
  invoked_ref : list ConverterInput;
  completion_ref : CompletionRef
}.

Fixpoint while_loop_ref (fuel : nat) (u : URL_) (converter : Converter)
         (processed : Ref) (st : LoopStateRef) : RunRef :=
  match fuel with
  | O => {| final_heap := heap st;
            invoked_ref := calls_ref st;
            completion_ref := OutOfFuelRef |}
  | S fuel' =>
      match loop_body_ref u converter processed st with
      | ExitRef => {| final_heap := heap st;
                      invoked_ref := calls_ref st;
                      completion_ref := ReturnedRef processed |}
      | NextRef st' => while_loop_ref fuel' u converter processed st'
      | RaiseRef x st' => {| final_heap := heap st';
                             invoked_ref := calls_ref st';
                             completion_ref := ThrownRef x |}
      end
  end.

Definition applyConverterDataset_ref (fuel : nat) (u : URL_) (dataset : Ref)
           (converter : Converter) (h : Heap) : RunRef :=
  let toProcess := entries (cells h dataset) in
  let (processed, h') := Heap_new_Map h in
  while_loop_ref fuel u converter processed
                 {| toProcess_ref := toProcess; heap := h'; calls_ref := [] |}.

(** The value-level outcome that a store-level outcome stands for. *)
Definition read_completion (r : RunRef) : Completion :=
  match completion_ref r with
  | ReturnedRef p => Returned (cells (final_heap r) p)
  | ThrownRef x => Thrown x
  | OutOfFuelRef => OutOfFuel
  end.

(** ** Properties of datasets and converters used in the statements *)

(** [ds] holds [mimeType] at a cost that is at most [c]. *)
Definition covers (ds : Dataset) (mimeType : MimeType_) (c : Cost) : Prop :=
  exists c' h, Map_get ds mimeType = Some (c', h) /\ cost_le c' c = true.

(** The argument object the engine builds for an entry of a dataset. *)
Definition input_of (u : URL_) (key : MimeType_) (value : Cost * Observable)
  : ConverterInput :=
  {| url := u; in_mimeType := key; in_cost := fst value; in_data := snd value |}.

(** Every candidate of a processed entry is still on the worklist or is
    covered by the processed map. *)
Definition expanded (u : URL_) (converter : Converter) (st : LoopState)
  : Prop :=
  forall key value candidates c,
    Map_get (processed st) key = Some value ->
    converter (input_of u key value) = Ok candidates ->
    In c candidates ->
    (exists e, In e (toProcess st) /\
               mimeType e = mimeType c /\ cost e = cost c) \/
    covers (processed st) (mimeType c) (cost c).

(** A converter that never throws. *)
Definition total (converter : Converter) : Prop :=
  forall d, exists candidates, converter d = Ok candidates.

(** A converter that offers [candidates] for every entry of mimetype
    [source] and nothing for any other entry. *)
Definition offers (source : MimeType_) (candidates : list Entry) : Converter :=
  fun d => if String.eqb (in_mimeType d) source then Ok candidates else Ok [].

(** ** Where the entries of a run come from *)

(** The entry a converter argument was built from. *)
Definition input_entry (a : ConverterInput) : Entry :=
  {| mimeType := in_mimeType a; cost := in_cost a; data := in_data a |}.

(** The converter returns on the argument [a]. *)
Definition returns (converter : Converter) (a : ConverterInput) : Prop :=
  exists candidates, converter a = Ok candidates.

(** [e] is the cached form of a candidate that the converter returned for
    one of the calls in [log]. *)
Definition offered (converter : Converter) (log : list ConverterInput)
           (e : Entry) : Prop :=
  exists a candidates c,
    In a log /\ converter a = Ok candidates /\ In c candidates /\ e = cache c.

(** [e] is an entry of the seed or was offered in [log]. *)
Definition origin (seed : Dataset) (converter : Converter)
           (log : list ConverterInput) (e : Entry) : Prop :=
  In (mimeType e, (cost e, data e)) seed \/ offered converter log e.

(** Two calls on the same mimetype, the later one at a strictly lower
    cost. *)
Definition cheaper_call (a b : ConverterInput) : Prop :=
  in_mimeType a = in_mimeType b -> cost_le (in_cost a) (in_cost b) = false.

End Converters.

Arguments Exit {Cost Observable Exn}.
Arguments Next {Cost Observable Exn} st.
Arguments Raise {Cost Observable Exn} e st.
Arguments Returned {Cost Observable Exn} ds.
Arguments Thrown {Cost Observable Exn} e.
Arguments OutOfFuel {Cost Observable Exn}.
Arguments ExitRef {Cost Observable Exn}.
Arguments NextRef {Cost Observable Exn} st.
Arguments RaiseRef {Cost Observable Exn} e st.
Arguments ReturnedRef {Exn} r.
Arguments ThrownRef {Exn} e.
Arguments OutOfFuelRef {Exn}.
Arguments offers {Cost Observable Exn} source candidates.
Arguments cheaper_call {Cost} cost_le {Observable} a b.

(** ** The scenarios of the specification, with integer costs *)

Section Scenarios.

Variable Observable : Type.
Variable Exn : Type.

Open Scope string_scope.
Open Scope Z_scope.

(** "text/plain" converts to "text/csv" at cost 1, "text/csv" back to
    "text/plain" at cost 5, and nothing else converts. *)
Definition plain_csv_loop (Hx Hy : Observable) : Converter Z Observable Exn :=
  fun d =>
    if String.eqb (in_mimeType d) "text/plain" then
      Ok [{| mimeType := "text/csv"; cost := 1; data := Hx |}]
    else if String.eqb (in_mimeType d) "text/csv" then
      Ok [{| mimeType := "text/plain"; cost := 5; data := Hy |}]
    else Ok [].

(** A step that offers "image/png" at cost [c] from entries of mimetype
    [source]. *)
Definition png_step (source : MimeType_) (c : Z) (h : Observable)
  : Converter Z Observable Exn :=
  offers source [{| mimeType := "image/png"; cost := c; data := h |}].


(** Two measures of the processed map against a finite list of mimetypes,
    used to bound the loop: how many mimetypes of the list it does not hold
    yet, and the sum of the costs at which it holds the others. *)
Definition missing (mimeTypes : list MimeType_) (ds : Dataset Z Observable)
  : nat :=
  List.length (filter (fun m => negb (Map_has ds m)) mimeTypes).

Definition weight (mimeTypes : list MimeType_) (ds : Dataset Z Observable)
  : nat :=
  list_sum (map (fun m => match Map_get ds m with
                          | Some (c, _) => Z.to_nat c
                          | None => 0%nat
                          end) mimeTypes).

End Scenarios.

(** Concrete handles for the examples: a source stream, or the caching
    wrapper of a handle. *)
Inductive Handle :=
| Stream (id : nat)
| CachedObservable (source : Handle).

Definition instanceof_CachedObservable (o : Handle) : Prop :=
  match o with
  | CachedObservable _ => True
  | Stream _ => False
  end.

(** Concrete inputs for the examples. *)

Definition example_url : URL_ := "file:///data.txt"%string.

Definition example_seed : Dataset Z Handle :=
  [("text/plain"%string, (0%Z, CachedObservable (Stream 0)))].

Definition example_converter : Converter Z Handle string :=
  plain_csv_loop string (Stream 1) (Stream 2).

Definition example_result : Dataset Z Handle :=
  [("text/plain"%string, (0%Z, CachedObservable (Stream 0)));
   ("text/csv"%string, (1%Z, CachedObservable (Stream 1)))].

(** A converter that throws on "text/csv" entries. *)
Definition example_failing_converter : Converter Z Handle string :=
  fun d =>
    if String.eqb (in_mimeType d) "text/csv" then Throw "unreadable"%string
    else example_converter d.

(** A store that holds the seed at reference 0. *)
Definition example_heap : Heap Z Handle :=
  {| cells := fun r => if Nat.eqb r 0 then example_seed else [];
     next := 1 |}.

(** * Properties *)

(** ** Arrays *)

Lemma pop_snoc A (xs : list A) (x : A) : pop (xs ++ [x]) = Some (x, xs).
Proof.
  induction xs as [|y ys IH]; simpl.
  - reflexivity.
  - rewrite IH. reflexivity.
Qed.

Lemma pop_Some A (xs rest : list A) (x : A) :
  pop xs = Some (x, rest) -> xs = rest ++ [x].
Proof.
  revert rest; induction xs as [|y ys IH]; simpl; intros rest H.
  - discriminate.
  - destruct (pop ys) as [[z rest']|] eqn:E.
    + inversion H; subst. simpl. f_equal. apply IH. reflexivity.
    + inversion H; subst. destruct ys as [|w ws]; [reflexivity|].
      simpl in E. destruct (pop ws) as [[? ?]|]; discriminate.
Qed.

Lemma pop_None A (xs : list A) : pop xs = None -> xs = [].
Proof.
  destruct xs as [|y ys]; simpl; [reflexivity|].
  destruct (pop ys) as [[? ?]|]; discriminate.
Qed.

Lemma fold_concat A (ls : list (list A)) (acc : list A) :
  fold_left (fun l r => l ++ r) ls acc = acc ++ List.concat ls.
Proof.
  revert acc; induction ls as [|l ls IH]; intros acc; simpl.
  - now rewrite app_nil_r.
  - rewrite IH. now rewrite app_assoc.
Qed.

Section Properties.

Variable Cost : Type.
Variable cost_le : Cost -> Cost -> bool.
Variable Observable : Type.
Variable CachedObservable_from : Observable -> Observable.
Variable Exn : Type.

Implicit Types (ds seed res : Dataset Cost Observable).
Implicit Types (converter : Converter Cost Observable Exn).
Implicit Types (st : LoopState Cost Observable).
Implicit Types (e : Entry Cost Observable).

(** ** Maps *)

Lemma Map_get_set_same ds key value :
  Map_get (Map_set ds key value) key = Some value.
Proof.
  induction ds as [|[k v] rest IH]; simpl.
  - now rewrite String.eqb_refl.
  - destruct (String.eqb k key) eqn:E; simpl; rewrite E; auto.
Qed.

Lemma Map_get_set_other ds key value key' :
  key' <> key -> Map_get (Map_set ds key value) key' = Map_get ds key'.
Proof.
  intros Hne. induction ds as [|[k v] rest IH]; simpl.
  - destruct (String.eqb key key') eqn:E; [|reflexivity].
    apply String.eqb_eq in E. congruence.
  - destruct (String.eqb k key) eqn:E; simpl.
    + apply String.eqb_eq in E. subst k.
      destruct (String.eqb key key') eqn:E'; [|reflexivity].
      apply String.eqb_eq in E'. congruence.
    + rewrite IH. reflexivity.
Qed.

Lemma Map_get_In ds key value :
  Map_get ds key = Some value -> In (key, value) ds.
Proof.
  induction ds as [|[k v] rest IH]; simpl; [discriminate|].
  destruct (String.eqb k key) eqn:E.
  - apply String.eqb_eq in E. intros H; inversion H; subst. now left.
  - intros H. right. auto.
Qed.

Lemma Map_get_not_In ds key :
  Map_get ds key = None <-> ~ In key (map fst ds).
Proof.
  induction ds as [|[k v] rest IH]; simpl.
  - tauto.
  - destruct (String.eqb k key) eqn:E.
    + apply String.eqb_eq in E. split; [discriminate|]. intros H; elim H; auto.
    + apply String.eqb_neq in E. rewrite IH. tauto.
Qed.

Lemma Map_wf_In_get ds key value :
  Map_wf ds -> In (key, value) ds -> Map_get ds key = Some value.
Proof.
  unfold Map_wf. induction ds as [|[k v] rest IH]; simpl; [tauto|].
  intros Hnd [H|H].
  - inversion H; subst. now rewrite String.eqb_refl.
  - inversion Hnd as [|? ? Hnot Hnd']; subst.
    destruct (String.eqb k key) eqn:E.
    + apply String.eqb_eq in E. subst k.
      elim Hnot. change key with (fst (key, value)). now apply in_map.
    + auto.
Qed.

Lemma Map_set_fresh ds key value :
  Map_get ds key = None -> Map_set ds key value = ds ++ [(key, value)].
Proof.
  induction ds as [|[k v] rest IH]; simpl; [reflexivity|].
  destruct (String.eqb k key); [discriminate|].
  intros H. now rewrite IH.
Qed.

Lemma already_cheaper_true ds key c :
  already_cheaper cost_le ds key c = true <->
  exists c' h, Map_get ds key = Some (c', h) /\ cost_le c' c = true.
Proof.
  unfold already_cheaper, Map_has.
  destruct (Map_get ds key) as [[c' h]|]; simpl.
  - split.
    + intros H. now exists c', h.
    + intros (c'' & h' & E & H). now inversion E; subst.
  - split; [discriminate|]. intros (? & ? & E & _). discriminate.
Qed.

Lemma already_cheaper_false ds key c :
  already_cheaper cost_le ds key c = false <->
  Map_get ds key = None \/
  exists c' h, Map_get ds key = Some (c', h) /\ cost_le c' c = false.
Proof.
  unfold already_cheaper, Map_has.
  destruct (Map_get ds key) as [[c' h]|]; simpl.
  - split.
    + intros H. right. now exists c', h.
    + intros [E|(c'' & h' & E & H)]; [discriminate|]. now inversion E; subst.
  - split; auto.
Qed.

(** ** One iteration *)

Lemma loop_body_Exit u converter st :
  loop_body cost_le CachedObservable_from u converter st = Exit ->
  toProcess st = [].
Proof.
  unfold loop_body. destruct (pop (toProcess st)) as [[e rest]|] eqn:Hpop.
  - destruct (already_cheaper _ _ _ _); [discriminate|].
    destruct (converter _); discriminate.
  - intros _. now apply pop_None.
Qed.

(** C6 (one iteration of the expansion loop).  Let [e] be the entry popped
    from the worklist.  When the processed map holds [e]'s mimetype at a
    cost that is at most [e]'s cost, the iteration drops [e]: the worklist
    is the rest, the processed map and the call log are unchanged, so the
    converter was not invoked.  Otherwise the iteration sets the processed
    map's value for the mimetype to [e]'s (cost, handle) pair and invokes
    the converter on [e].  Consequently, when [<=] is reflexive, an entry
    whose cost equals the recorded cost leaves the recorded entry in
    place. *)
Theorem loop_body_discards_or_records u converter st e rest :
  pop (toProcess st) = Some (e, rest) ->
  (forall c h,
      Map_get (processed st) (mimeType e) = Some (c, h) ->
      cost_le c (cost e) = true ->
      loop_body cost_le CachedObservable_from u converter st =
      Next {| toProcess := rest;
                  processed := processed st;
                  calls := calls st |})
  /\
  (Map_get (processed st) (mimeType e) = None \/
   (exists c h, Map_get (processed st) (mimeType e) = Some (c, h) /\
                cost_le c (cost e) = false) ->
   exists st',
     (loop_body cost_le CachedObservable_from u converter st = Next st' \/
      exists x,
        loop_body cost_le CachedObservable_from u converter st = Raise x st') /\
     processed st' = Map_set (processed st) (mimeType e) (cost e, data e) /\
     Map_get (processed st') (mimeType e) = Some (cost e, data e) /\
     calls st' =
     calls st ++ [{| url := u; in_mimeType := mimeType e;
                     in_cost := cost e; in_data := data e |}])
  /\
  ((forall c, cost_le c c = true) ->
   forall h,
     Map_get (processed st) (mimeType e) = Some (cost e, h) ->
     exists st',
       loop_body cost_le CachedObservable_from u converter st = Next st' /\
       toProcess st' = rest /\
       calls st' = calls st /\
       Map_get (processed st') (mimeType e) = Some (cost e, h)).
Proof.
  intros Hpop. unfold loop_body. rewrite Hpop. repeat split.
  - intros c h Hget Hle.
    assert (Hskip : already_cheaper cost_le (processed st) (mimeType e) (cost e) = true)
      by (apply already_cheaper_true; eauto).
    now rewrite Hskip.
  - intros Hnot. apply already_cheaper_false in Hnot. rewrite Hnot.
    destruct (converter _) as [candidates|x] eqn:Hconv; eexists;
      (split; [eauto|]); simpl; repeat split; auto using Map_get_set_same.
  - intros Hrefl h Hget.
    assert (Hskip : already_cheaper cost_le (processed st) (mimeType e) (cost e) = true)
      by (apply already_cheaper_true; eauto).
    rewrite Hskip. eexists; repeat split; simpl; auto.
Qed.

(** A run that ended within its fuel is the same run under more fuel: the
    outcome of a call is a function of its arguments. *)
Lemma while_loop_more_fuel u converter fuel : forall st extra,
  completion (while_loop cost_le CachedObservable_from fuel u converter st)
  <> OutOfFuel ->
  while_loop cost_le CachedObservable_from (fuel + extra) u converter st
  = while_loop cost_le CachedObservable_from fuel u converter st.
Proof.
  induction fuel as [|fuel IH]; intros st extra Hrun; simpl in *.
  - now elim Hrun.
  - destruct (loop_body cost_le CachedObservable_from u converter st);
      auto.
Qed.

(** ** The combinator *)

Lemma Array_map_Forall2 A B (f : A -> Result Exn B) xs ys :
  Forall2 (fun x y => f x = Ok y) xs ys -> Array_map f xs = Ok ys.
Proof.
  induction 1 as [|x y xs ys Hx _ IH]; simpl.
  - reflexivity.
  - rewrite Hx. simpl. rewrite IH. reflexivity.
Qed.

(** C5.  When the steps [c1 ... cn] return the candidate lists
    [l1 ... ln] for the entry [d], the combined converter returns
    [l1 ++ ... ++ ln] for [d]: the steps in their order and each step's
    candidates in their order.  In particular the combination of two steps
    [a] and [b] returns [a(d) ++ b(d)]. *)
Theorem combineManyConverters_concat :
  (forall (converters : list (Converter Cost Observable Exn)) d lists,
      Forall2 (fun c l => c d = Ok l) converters lists ->
      combineManyConverters converters d = Ok (List.concat lists)) /\
  (forall (a b : Converter Cost Observable Exn) d la lb,
      a d = Ok la -> b d = Ok lb ->
      combineManyConverters [a; b] d = Ok (la ++ lb)).
Proof.
  assert (General :
    forall (converters : list (Converter Cost Observable Exn)) d lists,
      Forall2 (fun c l => c d = Ok l) converters lists ->
      combineManyConverters converters d = Ok (List.concat lists)).
  { intros converters d lists H. unfold combineManyConverters.
    rewrite (Array_map_Forall2 (fun c => c d) H). simpl.
    now rewrite fold_concat. }
  split; [exact General|].
  intros a b d la lb Ha Hb.
  rewrite (General [a; b] d [la; lb]).
  - simpl. now rewrite app_nil_r.
  - repeat constructor; assumption.
Qed.

(** ** The loop under a totally ordered cost *)

Section OrderedCosts.

Hypothesis cost_le_total :
  forall a b, cost_le a b = true \/ cost_le b a = true.
Hypothesis cost_le_trans :
  forall a b c, cost_le a b = true -> cost_le b c = true -> cost_le a c = true.

Lemma cost_le_refl c : cost_le c c = true.
Proof. destruct (cost_le_total c c); assumption. Qed.

Lemma covers_set_same ds key c h :
  covers cost_le (Map_set ds key (c, h)) key c.
Proof.
  exists c, h. split; [apply Map_get_set_same | apply cost_le_refl].
Qed.

(** Recording an entry that was not skipped never raises a recorded cost. *)
Lemma covers_set_mono ds key c h key0 c0 :
  already_cheaper cost_le ds key c = false ->
  covers cost_le ds key0 c0 ->
  covers cost_le (Map_set ds key (c, h)) key0 c0.
Proof.
  intros Hskip (c1 & h1 & Hget & Hle).
  destruct (String.eqb key0 key) eqn:E.
  - apply String.eqb_eq in E. subst key0.
    apply already_cheaper_false in Hskip.
    destruct Hskip as [Hnone|(c2 & h2 & Hget2 & Hnle)]; [congruence|].
    rewrite Hget in Hget2. inversion Hget2; subst c2 h2.
    exists c, h. split; [apply Map_get_set_same|].
    destruct (cost_le_total c1 c) as [H|H]; [congruence|]. eauto.
  - apply String.eqb_neq in E. exists c1, h1.
    rewrite Map_get_set_other; auto.
Qed.

(** Whatever is on the worklist or in the processed map is covered by the
    dataset the loop returns. *)
Lemma while_loop_covers u converter fuel : forall st res,
  completion (while_loop cost_le CachedObservable_from fuel u converter st)
  = Returned res ->
  (forall e, In e (toProcess st) -> covers cost_le res (mimeType e) (cost e)) /\
  (forall key c, covers cost_le (processed st) key c -> covers cost_le res key c).
Proof.
  induction fuel as [|fuel IH]; intros st res Hrun; simpl in Hrun.
  - discriminate.
  - unfold loop_body in Hrun.
    destruct (pop (toProcess st)) as [[e rest]|] eqn:Hpop.
    + apply pop_Some in Hpop.
      destruct (already_cheaper cost_le (processed st) (mimeType e) (cost e))
        eqn:Hskip.
      * apply IH in Hrun. simpl in Hrun. destruct Hrun as [Hwork Hproc].
        split; [|exact Hproc].
        intros e' Hin. rewrite Hpop in Hin. apply in_app_or in Hin.
        destruct Hin as [Hin|[<-|[]]]; [auto|].
        apply Hproc. now apply already_cheaper_true.
      * destruct (converter _) as [candidates|x] eqn:Hconv;
          [|simpl in Hrun; discriminate].
        apply IH in Hrun. simpl in Hrun. destruct Hrun as [Hwork Hproc].
        split.
        -- intros e' Hin. rewrite Hpop in Hin. apply in_app_or in Hin.
           destruct Hin as [Hin|[<-|[]]].
           ++ apply Hwork. apply in_or_app. now left.
           ++ apply Hproc. apply covers_set_same.
        -- intros key c Hcov. apply Hproc. now apply covers_set_mono.
    + simpl in Hrun. inversion Hrun; subst res. apply pop_None in Hpop.
      rewrite Hpop. split; [intros ? []|auto].
Qed.

Lemma expanded_Next u converter st st' :
  expanded cost_le u converter st ->
  loop_body cost_le CachedObservable_from u converter st = Next st' ->
  expanded cost_le u converter st'.
Proof.
  intros Hexp Hbody. unfold loop_body in Hbody.
  destruct (pop (toProcess st)) as [[e rest]|] eqn:Hpop; [|discriminate].
  apply pop_Some in Hpop.
  destruct (already_cheaper cost_le (processed st) (mimeType e) (cost e))
    eqn:Hskip.
  - inversion Hbody; subst st'; clear Hbody.
    intros key value candidates c Hget Hconv Hin; simpl in *.
    destruct (Hexp key value candidates c Hget Hconv Hin)
      as [(e0 & Hin0 & Hm & Hc)|Hcov]; [|now right].
    rewrite Hpop in Hin0. apply in_app_or in Hin0.
    destruct Hin0 as [Hin0|[<-|[]]].
    + left. now exists e0.
    + right. rewrite <- Hm, <- Hc. now apply already_cheaper_true.
  - destruct (converter _) as [candidates0|x] eqn:Hconv0; [|discriminate].
    inversion Hbody; subst st'; clear Hbody.
    intros key value candidates c Hget Hconv Hin; simpl in *.
    destruct (String.eqb key (mimeType e)) eqn:E.
    + apply String.eqb_eq in E. subst key.
      rewrite Map_get_set_same in Hget. inversion Hget; subst value.
      unfold input_of in Hconv. simpl in Hconv.
      rewrite Hconv0 in Hconv. inversion Hconv; subst candidates0.
      left. exists (cache CachedObservable_from c). repeat split.
      apply in_or_app. right. now apply in_map.
    + apply String.eqb_neq in E.
      rewrite Map_get_set_other in Hget by assumption.
      destruct (Hexp key value candidates c Hget Hconv Hin)
        as [(e0 & Hin0 & Hm & Hc)|Hcov].
      * rewrite Hpop in Hin0. apply in_app_or in Hin0.
        destruct Hin0 as [Hin0|[<-|[]]].
        -- left. exists e0. repeat split; auto. apply in_or_app. now left.
        -- right. rewrite <- Hm, <- Hc. apply covers_set_same.
      * right. now apply covers_set_mono.
Qed.

Lemma while_loop_expanded u converter fuel : forall st res,
  expanded cost_le u converter st ->
  completion (while_loop cost_le CachedObservable_from fuel u converter st)
  = Returned res ->
  forall key value candidates c,
    Map_get res key = Some value ->
    converter (input_of u key value) = Ok candidates ->
    In c candidates ->
    covers cost_le res (mimeType c) (cost c).
Proof.
  induction fuel as [|fuel IH]; intros st res Hexp Hrun; simpl in Hrun.
  - discriminate.
  - destruct (loop_body cost_le CachedObservable_from u converter st)
      as [|st'|x st'] eqn:Hbody.
    + simpl in Hrun. inversion Hrun; subst res.
      apply loop_body_Exit in Hbody.
      intros key value candidates c Hget Hconv Hin.
      destruct (Hexp key value candidates c Hget Hconv Hin)
        as [(e0 & Hin0 & _)|Hcov]; [|assumption].
      rewrite Hbody in Hin0. destruct Hin0.
    + eapply IH; [|exact Hrun]. eapply expanded_Next; eauto.
    + discriminate.
Qed.

(** C1 (no cheaper edge).  Let the call return the dataset [res], let
    [key] map to [value] in [res], and let the converter return
    [candidates] for that entry.  Then for every candidate [c], either
    [c]'s mimetype is absent from [res] or [res] holds it at a cost that
    is at most [c]'s cost. *)
Theorem applyConverterDataset_fixed_point fuel u seed converter res :
  completion
    (applyConverterDataset cost_le CachedObservable_from fuel u seed converter)
  = Returned res ->
  forall key value candidates c,
    Map_get res key = Some value ->
    converter (input_of u key value) = Ok candidates ->
    In c candidates ->
    Map_get res (mimeType c) = None \/
    exists c' h,
      Map_get res (mimeType c) = Some (c', h) /\ cost_le c' (cost c) = true.
Proof.
  intros Hrun key value candidates c Hget Hconv Hin. right.
  unfold applyConverterDataset in Hrun.
  eapply while_loop_expanded;
    [|exact Hrun|exact Hget|exact Hconv|exact Hin].
  intros k v cs c0 Hempty. simpl in Hempty. discriminate.
Qed.

(** C4 (monotonic cost).  When the call returns the dataset [res], every
    mimetype of the seed is a key of [res], at a cost that is at most the
    seed's cost for it. *)
Theorem applyConverterDataset_monotonic fuel u seed converter res :
  completion
    (applyConverterDataset cost_le CachedObservable_from fuel u seed converter)
  = Returned res ->
  forall key c h,
    Map_get seed key = Some (c, h) ->
    exists c' h',
      Map_get res key = Some (c', h') /\ cost_le c' c = true.
Proof.
  intros Hrun key c h Hget.
  apply while_loop_covers in Hrun. destruct Hrun as [Hwork _].
  apply Map_get_In in Hget.
  apply (Hwork {| mimeType := key; cost := c; data := h |}).
  simpl. unfold entries.
  change {| mimeType := key; cost := c; data := h |}
    with ((fun kv : MimeType_ * (Cost * Observable) =>
             {| mimeType := fst kv; cost := fst (snd kv); data := snd (snd kv) |})
            (key, (c, h))).
  now apply in_map.
Qed.

End OrderedCosts.

(** ** Handles *)

Section Caching.

(** [instanceof CachedObservable] *)
Variable is_CachedObservable : Observable -> Prop.

Lemma In_Map_set ds key value kv :
  In kv (Map_set ds key value) -> snd kv = value \/ In kv ds.
Proof.
  induction ds as [|[k v] rest IH]; simpl.
  - intros [<-|[]]. now left.
  - destruct (String.eqb k key); simpl.
    + intros [<-|H]; auto.
    + intros [<-|H]; auto. destruct (IH H); auto.
Qed.

Lemma while_loop_cached u converter fuel : forall st res,
  (forall o, is_CachedObservable (CachedObservable_from o)) ->
  Forall (fun e => is_CachedObservable (data e)) (toProcess st) ->
  Forall (fun kv => is_CachedObservable (snd (snd kv))) (processed st) ->
  completion (while_loop cost_le CachedObservable_from fuel u converter st)
  = Returned res ->
  Forall (fun kv => is_CachedObservable (snd (snd kv))) res.
Proof.
  induction fuel as [|fuel IH]; intros st res Hfrom Hwork Hproc Hrun;
    simpl in Hrun.
  - discriminate.
  - unfold loop_body in Hrun.
    destruct (pop (toProcess st)) as [[e rest]|] eqn:Hpop.
    + apply pop_Some in Hpop. rewrite Hpop in Hwork.
      apply Forall_app in Hwork. destruct Hwork as [Hrest He].
      inversion He as [|? ? Hdata _]; subst.
      destruct (already_cheaper cost_le (processed st) (mimeType e) (cost e)).
      * apply IH in Hrun; auto.
      * destruct (converter _) as [candidates|x]; [|discriminate].
        apply IH in Hrun; auto; simpl.
        -- apply Forall_app. split; [assumption|].
           apply Forall_forall. intros e' Hin.
           apply in_map_iff in Hin. destruct Hin as (c & <- & _).
           simpl. apply Hfrom.
        -- apply Forall_forall. intros kv Hin.
           apply In_Map_set in Hin. destruct Hin as [Heq|Hin].
           ++ rewrite Heq. exact Hdata.
           ++ rewrite Forall_forall in Hproc. now apply Hproc.
    + simpl in Hrun. inversion Hrun; subst res. assumption.
Qed.

(** C7.  When [CachedObservable.from] returns caching handles and the
    handles of the seed are caching handles, every handle of the dataset
    the call returns is a caching handle. *)
Theorem applyConverterDataset_cached fuel u seed converter res :
  (forall o, is_CachedObservable (CachedObservable_from o)) ->
  Forall (fun kv => is_CachedObservable (snd (snd kv))) seed ->
  completion
    (applyConverterDataset cost_le CachedObservable_from fuel u seed converter)
  = Returned res ->
  Forall (fun kv => is_CachedObservable (snd (snd kv))) res.
Proof.
  intros Hfrom Hseed Hrun. unfold applyConverterDataset in Hrun.
  eapply while_loop_cached; [exact Hfrom| | |exact Hrun]; simpl.
  - unfold entries. apply Forall_forall. intros e Hin.
    apply in_map_iff in Hin. destruct Hin as (kv & <- & Hin). simpl.
    rewrite Forall_forall in Hseed. now apply Hseed.
  - constructor.
Qed.

End Caching.

(** ** Failures of the converter *)

Lemma while_loop_throw u converter fuel : forall st,
  (forall a x, In a (calls st) -> converter a <> Throw x) ->
  forall a x,
    In a (invoked (while_loop cost_le CachedObservable_from fuel u converter st)) ->
    converter a = Throw x ->
    completion (while_loop cost_le CachedObservable_from fuel u converter st)
    = Thrown x.
Proof.
  induction fuel as [|fuel IH]; intros st Hlog a x Hin Hconv; simpl in *.
  - elim (Hlog a x Hin Hconv).
  - unfold loop_body in *.
    destruct (pop (toProcess st)) as [[e rest]|] eqn:Hpop.
    + destruct (already_cheaper cost_le (processed st) (mimeType e) (cost e)).
      * apply IH with (a := a); auto.
      * destruct (converter _) as [candidates|x0] eqn:Hconv0.
        -- apply IH with (a := a); auto. simpl.
           intros a' x' Hin' Hthrow. apply in_app_or in Hin'.
           destruct Hin' as [Hin'|[<-|[]]].
           ++ exact (Hlog a' x' Hin' Hthrow).
           ++ congruence.
        -- simpl in *. apply in_app_or in Hin.
           destruct Hin as [Hin|[<-|[]]].
           ++ elim (Hlog a x Hin Hconv).
           ++ congruence.
    + simpl in *. elim (Hlog a x Hin Hconv).
Qed.

Lemma while_loop_total u converter fuel : forall st x,
  total converter ->
  completion (while_loop cost_le CachedObservable_from fuel u converter st)
  <> Thrown x.
Proof.
  induction fuel as [|fuel IH]; intros st x Htotal; simpl.
  - discriminate.
  - unfold loop_body.
    destruct (pop (toProcess st)) as [[e rest]|]; [|discriminate].
    destruct (already_cheaper cost_le (processed st) (mimeType e) (cost e)).
    + now apply IH.
    + destruct (converter _) as [candidates|x0] eqn:Hconv.
      * now apply IH.
      * destruct (Htotal {| url := u; in_mimeType := mimeType e;
                            in_cost := cost e; in_data := data e |})
          as [candidates Hok].
        congruence.
Qed.

(** C8.  If the converter throws on an argument the call invokes it on,
    the call ends with that failure and returns no dataset; if the
    converter never throws, the call does not end with a failure. *)
Theorem applyConverterDataset_failure fuel u seed converter :
  (forall a x,
      In a (invoked (applyConverterDataset cost_le CachedObservable_from
                                           fuel u seed converter)) ->
      converter a = Throw x ->
      completion (applyConverterDataset cost_le CachedObservable_from
                                        fuel u seed converter) = Thrown x /\
      forall ds,
        completion (applyConverterDataset cost_le CachedObservable_from
                                          fuel u seed converter)
        <> Returned ds) /\
  (total converter ->
   forall x,
     completion (applyConverterDataset cost_le CachedObservable_from
                                       fuel u seed converter) <> Thrown x).
Proof.
  split.
  - intros a x Hin Hconv.
    assert (Hthrown :
      completion (applyConverterDataset cost_le CachedObservable_from
                                        fuel u seed converter) = Thrown x).
    { unfold applyConverterDataset in *.
      eapply while_loop_throw; [|exact Hin|exact Hconv].
      intros a' x' []. }
    split; [exact Hthrown|]. rewrite Hthrown. discriminate.
  - intros Htotal x. unfold applyConverterDataset.
    now apply while_loop_total.
Qed.

(** ** A converter without candidates *)

Lemma entries_snoc seed key value :
  entries (seed ++ [(key, value)]) =
  entries seed ++ [{| mimeType := key; cost := fst value; data := snd value |}].
Proof. unfold entries. now rewrite map_app. Qed.

(** With a converter that returns no candidate, the loop moves the worklist
    to the processed map, last entry first. *)
Lemma while_loop_no_candidates u converter :
  (forall d, converter d = Ok []) ->
  forall seed ds log extra,
    NoDup (map fst seed) ->
    (forall key, In key (map fst seed) -> Map_get ds key = None) ->
    completion
      (while_loop cost_le CachedObservable_from
                  (S (List.length seed) + extra) u converter
                  {| toProcess := entries seed; processed := ds; calls := log |})
    = Returned (ds ++ rev seed).
Proof.
  intros Hnone seed.
  induction seed as [|[key value] seed IH] using rev_ind;
    intros ds log extra Hnd Hfresh.
  - simpl. now rewrite app_nil_r.
  - rewrite length_app, Nat.add_comm with (n := List.length seed). simpl.
    unfold loop_body. simpl toProcess. rewrite entries_snoc, pop_snoc. simpl.
    assert (Hget : Map_get ds key = None).
    { apply Hfresh. rewrite map_app. apply in_or_app. right. now left. }
    assert (Hskip : already_cheaper cost_le ds key (fst value) = false)
      by (apply already_cheaper_false; now left).
    rewrite Hskip, Hnone. simpl. rewrite app_nil_r.
    rewrite map_app in Hnd. apply NoDup_remove in Hnd. simpl in Hnd.
    rewrite app_nil_r in Hnd. destruct Hnd as [Hnd Hnotin].
    rewrite rev_app_distr. simpl.
    rewrite Map_set_fresh by assumption.
    destruct value as [c h]. simpl.
    change (ds ++ (key, (c, h)) :: rev seed)
      with (ds ++ [(key, (c, h))] ++ rev seed).
    rewrite app_assoc. apply IH; [assumption|].
    intros key' Hin.
    assert (Hne : key' <> key) by (intros ->; contradiction).
    rewrite <- (Map_set_fresh ds key (c, h) Hget).
    rewrite Map_get_set_other by assumption.
    apply Hfresh. rewrite map_app. apply in_or_app. now left.
Qed.

Lemma Map_get_rev seed key :
  Map_wf seed -> Map_get (rev seed) key = Map_get seed key.
Proof.
  intros Hwf.
  assert (Hwf' : Map_wf (rev seed)).
  { unfold Map_wf in *. rewrite map_rev. now apply NoDup_rev. }
  destruct (Map_get seed key) as [value|] eqn:Hget.
  - apply Map_get_In in Hget. apply Map_wf_In_get; [assumption|].
    now apply in_rev in Hget.
  - apply Map_get_not_In. apply Map_get_not_In in Hget.
    rewrite map_rev. intros Hin. apply in_rev in Hin. contradiction.
Qed.

(** C10.  The combination of no converter returns the empty candidate list
    for every entry.  With it as the step, the call on a seed returns, once
    the fuel covers one iteration per seed entry, a dataset that maps every
    mimetype to what the seed maps it to, so the two (mimetype -> cost)
    mappings are equal. *)
Theorem combineManyConverters_nil u seed :
  (forall d,
      combineManyConverters (@nil (Converter Cost Observable Exn)) d = Ok []) /\
  (Map_wf seed ->
   forall extra,
   exists res,
     completion
       (applyConverterDataset cost_le CachedObservable_from
                              (S (List.length seed) + extra) u seed
                              (combineManyConverters []))
     = @Returned _ _ Exn res /\
     (forall key, Map_get res key = Map_get seed key) /\
     (forall key,
         option_map fst (Map_get res key) = option_map fst (Map_get seed key))).
Proof.
  split; [reflexivity|].
  intros Hwf extra. exists (rev seed).
  assert (Hget : forall key, Map_get (rev seed) key = Map_get seed key)
    by (intros key; now apply Map_get_rev).
  repeat split.
  - unfold applyConverterDataset.
    apply while_loop_no_candidates; auto.
  - exact Hget.
  - intros key. now rewrite Hget.
Qed.

(** ** The store *)

(** The loop writes the store at the processed map only, allocates nothing
    and can only return the processed map. *)
Lemma while_loop_ref_frame u converter p fuel :
  forall (st : LoopStateRef Cost Observable),
    (forall m, m <> p ->
       cells (final_heap (while_loop_ref cost_le CachedObservable_from
                                         fuel u converter p st)) m
       = cells (heap st) m) /\
    next (final_heap (while_loop_ref cost_le CachedObservable_from
                                     fuel u converter p st))
    = next (heap st) /\
    (forall r,
        completion_ref (while_loop_ref cost_le CachedObservable_from
                                       fuel u converter p st)
        = ReturnedRef r -> r = p).
Proof.
  induction fuel as [|fuel IH]; intros st; simpl.
  - repeat split; auto. discriminate.
  - unfold loop_body_ref.
    destruct (pop (toProcess_ref st)) as [[e rest]|]; simpl.
    + destruct (already_cheaper cost_le (cells (heap st) p) (mimeType e) (cost e)).
      * apply (IH {| toProcess_ref := rest; heap := heap st;
                     calls_ref := calls_ref st |}).
      * destruct (converter _) as [candidates|x]; simpl.
        -- match goal with
           | |- context [while_loop_ref _ _ _ _ _ _ ?s] =>
               destruct (IH s) as (Hcells & Hnext & Hret)
           end.
           simpl in *. repeat split; auto.
           intros m Hne. rewrite Hcells by assumption.
           destruct (Nat.eqb m p) eqn:E; [|reflexivity].
           apply Nat.eqb_eq in E. contradiction.
        -- repeat split; auto; [|discriminate].
           intros m Hne. destruct (Nat.eqb m p) eqn:E; [|reflexivity].
           apply Nat.eqb_eq in E. contradiction.
    + repeat split; auto. intros r H. now inversion H.
Qed.

(** The store-level loop computes what the value-level loop computes on the
    contents of the processed map. *)
Lemma while_loop_ref_refines u converter p fuel :
  forall (st : LoopStateRef Cost Observable),
    read_completion (while_loop_ref cost_le CachedObservable_from
                                    fuel u converter p st)
    = completion (while_loop cost_le CachedObservable_from fuel u converter
                             {| toProcess := toProcess_ref st;
                                processed := cells (heap st) p;
                                calls := calls_ref st |}) /\
    invoked_ref (while_loop_ref cost_le CachedObservable_from
                                fuel u converter p st)
    = invoked (while_loop cost_le CachedObservable_from fuel u converter
                          {| toProcess := toProcess_ref st;
                             processed := cells (heap st) p;
                             calls := calls_ref st |}).
Proof.
  induction fuel as [|fuel IH]; intros st; simpl.
  - split; reflexivity.
  - unfold loop_body_ref, loop_body. simpl.
    destruct (pop (toProcess_ref st)) as [[e rest]|]; simpl.
    + destruct (already_cheaper cost_le (cells (heap st) p) (mimeType e) (cost e)).
      * apply (IH {| toProcess_ref := rest; heap := heap st;
                     calls_ref := calls_ref st |}).
      * destruct (converter _) as [candidates|x]; simpl.
        -- match goal with
           | |- context [while_loop_ref _ _ _ _ _ _ ?s] =>
               destruct (IH s) as (Hc & Hi)
           end.
           simpl in Hc, Hi. rewrite Nat.eqb_refl in Hc, Hi. auto.
        -- split; reflexivity.
    + split; reflexivity.
Qed.

Lemma applyConverterDataset_ref_refines fuel u dataset converter
      (h : Heap Cost Observable) :
  read_completion (applyConverterDataset_ref cost_le CachedObservable_from
                                             fuel u dataset converter h)
  = completion (applyConverterDataset cost_le CachedObservable_from
                                      fuel u (cells h dataset) converter) /\
  invoked_ref (applyConverterDataset_ref cost_le CachedObservable_from
                                         fuel u dataset converter h)
  = invoked (applyConverterDataset cost_le CachedObservable_from
                                   fuel u (cells h dataset) converter).
Proof.
  unfold applyConverterDataset_ref, applyConverterDataset, Heap_new_Map.
  match goal with
  | |- context [while_loop_ref _ _ _ _ _ ?p ?s] =>
      destruct (while_loop_ref_refines u converter p fuel s) as (Hc & Hi)
  end.
  simpl in Hc, Hi. rewrite Nat.eqb_refl in Hc, Hi. auto.
Qed.

(** C9 (the seed is not mutated).  After the call, whatever its outcome,
    the seed map holds what it held before the call and so does every other
    map that existed before the call; a returned dataset is the map the
    call allocated, which is none of the maps that existed before. *)
Theorem applyConverterDataset_ref_keeps_seed fuel u dataset converter
        (h : Heap Cost Observable) :
  dataset < next h ->
  cells (final_heap (applyConverterDataset_ref cost_le CachedObservable_from
                                               fuel u dataset converter h))
        dataset
  = cells h dataset /\
  (forall m, m < next h ->
     cells (final_heap (applyConverterDataset_ref cost_le CachedObservable_from
                                                  fuel u dataset converter h))
           m
     = cells h m) /\
  (forall r,
      completion_ref (applyConverterDataset_ref cost_le CachedObservable_from
                                                fuel u dataset converter h)
      = ReturnedRef r ->
      r = next h /\ r <> dataset).
Proof.
  intros Hvalid. unfold applyConverterDataset_ref, Heap_new_Map.
  match goal with
  | |- context [while_loop_ref _ _ _ _ _ ?p ?s] =>
      destruct (while_loop_ref_frame u converter p fuel s)
        as (Hcells & _ & Hret)
  end.
  simpl in Hcells.
  assert (Hold : forall m, m < next h ->
    cells (final_heap
             (while_loop_ref cost_le CachedObservable_from fuel u converter
                (next h)
                {| toProcess_ref := entries (cells h dataset);
                   heap := {| cells := fun r =>
                                         if Nat.eqb r (next h) then []
                                         else cells h r;
                              next := S (next h) |};
                   calls_ref := [] |})) m
    = cells h m).
  { intros m Hm. rewrite Hcells by lia.
    destruct (Nat.eqb m (next h)) eqn:E; [|reflexivity].
    apply Nat.eqb_eq in E. lia. }
  split; [now apply Hold|]. split; [exact Hold|].
  intros r Hr. apply Hret in Hr. lia.
Qed.

End Properties.

(** ** The scenarios *)

Lemma Z_leb_total (a b : Z) : Z.leb a b = true \/ Z.leb b a = true.
Proof.
  destruct (Z.leb_spec a b); [now left|right].
  apply Z.leb_le. lia.
Qed.

Lemma Z_leb_trans (a b c : Z) :
  Z.leb a b = true -> Z.leb b c = true -> Z.leb a c = true.
Proof. rewrite !Z.leb_le. lia. Qed.

Open Scope string_scope.
Open Scope Z_scope.

(** C2.  From the seed {"text/plain": (0, H0)}, with the converter that
    maps "text/plain" to [("text/csv", 1, Hx)], "text/csv" to
    [("text/plain", 5, Hy)] and anything else to [], the call returns, for
    every fuel of at least four iterations, the dataset
    {"text/plain": (0, H0), "text/csv": (1, from Hx)}: its
    (mimetype -> cost) mapping is {"text/plain": 0, "text/csv": 1} and the
    cost-5 entry for "text/plain" is not in it. *)
Theorem plain_csv_scenario (Observable Exn : Type)
        (from : Observable -> Observable) (H0 Hx Hy : Observable)
        (u : URL_) (extra : nat) :
  exists res,
    completion
      (applyConverterDataset Z.leb from (4 + extra) u
                             [("text/plain", (0, H0))]
                             (plain_csv_loop Exn Hx Hy))
    = Returned res /\
    res = [("text/plain", (0, H0)); ("text/csv", (1, from Hx))] /\
    costs res = [("text/plain", 0); ("text/csv", 1)].
Proof.
  eexists. split; [reflexivity|]. split; reflexivity.
Qed.

Lemma while_loop_unfold Cost (cost_le : Cost -> Cost -> bool) Observable
      (from : Observable -> Observable) Exn fuel u
      (converter : Converter Cost Observable Exn) st :
  while_loop cost_le from (S fuel) u converter st =
  match loop_body cost_le from u converter st with
  | Exit => {| invoked := calls st; completion := Returned (processed st) |}
  | Next st' => while_loop cost_le from fuel u converter st'
  | Raise x st' => {| invoked := calls st'; completion := Thrown x |}
  end.
Proof. reflexivity. Qed.

(** C3.  Let one step offer "image/png" at cost 3 and another offer it at
    cost 2, both from the entries of the mimetype [source] of the seed.
    Combined in either order, they make the call return a dataset that maps
    "image/png" to cost 2. *)
Theorem png_cheapest_either_order (Observable Exn : Type)
        (from : Observable -> Observable) (source : MimeType_) (c0 : Z)
        (H0 Ha Hb : Observable) (u : URL_) (extra : nat) :
  source <> "image/png" ->
  (exists res,
      completion
        (applyConverterDataset Z.leb from (4 + extra) u [(source, (c0, H0))]
           (combineManyConverters
              [png_step Exn source 3 Ha; png_step Exn source 2 Hb]))
      = Returned res /\
      Map_get res "image/png" = Some (2, from Hb)) /\
  (exists res,
      completion
        (applyConverterDataset Z.leb from (4 + extra) u [(source, (c0, H0))]
           (combineManyConverters
              [png_step Exn source 2 Hb; png_step Exn source 3 Ha]))
      = Returned res /\
      Map_get res "image/png" = Some (2, from Hb)).
Proof.
  intros Hne.
  assert (Hsp : String.eqb source "image/png" = false)
    by now apply String.eqb_neq.
  assert (Hps : String.eqb "image/png" source = false)
    by (apply String.eqb_neq; congruence).
  assert (Hss : String.eqb source source = true) by apply String.eqb_refl.
  split; exists [(source, (c0, H0)); ("image/png", (2, from Hb))]; split;
    try (with_strategy opaque [String.eqb] cbn; now rewrite Hsp);
    unfold applyConverterDataset;
    change (4 + extra)%nat with (S (S (S (S extra))));
    rewrite while_loop_unfold;
    unfold combineManyConverters, png_step, offers;
    repeat (cbv delta [loop_body already_cheaper Map_has];
            with_strategy opaque [String.eqb] cbn;
            rewrite ?Hss, ?Hps, ?Hsp);
    reflexivity.
Qed.

(** ** The loop need not terminate *)



(** ** The theorems at concrete inputs *)

Lemma applyConverterDataset_fixed_point_witness :
  completion (applyConverterDataset Z.leb CachedObservable 4 example_url
                                    example_seed example_converter)
  = Returned example_result /\
  (Map_get example_result "text/plain" = None \/
   exists c' h,
     Map_get example_result "text/plain" = Some (c', h) /\
     Z.leb c' 5 = true).
Proof.
  split; [reflexivity|].
  exact (applyConverterDataset_fixed_point
           Z.leb CachedObservable Z_leb_total Z_leb_trans
           4 example_url example_seed example_converter
           (res := example_result) eq_refl
           "text/csv"
           {| mimeType := "text/plain"; cost := 5; data := Stream 2 |}
           eq_refl eq_refl (or_introl eq_refl)).
Defined.

Lemma applyConverterDataset_monotonic_witness :
  Map_get example_seed "text/plain" = Some (0, CachedObservable (Stream 0)) /\
  exists c' h',
    Map_get example_result "text/plain" = Some (c', h') /\ Z.leb c' 0 = true.
Proof.
  split; [reflexivity|].
  exact (applyConverterDataset_monotonic
           Z.leb CachedObservable Z_leb_total Z_leb_trans
           4 example_url example_seed example_converter
           (res := example_result) eq_refl
           "text/plain" eq_refl).
Defined.

Lemma loop_body_discards_or_records_witness :
  (* a dearer "text/plain" is dropped *)
  loop_body Z.leb CachedObservable example_url example_converter
            {| toProcess := [{| mimeType := "text/plain"; cost := 5;
                                data := CachedObservable (Stream 2) |}];
               processed := example_result;
               calls := [] |}
  = Next {| toProcess := []; processed := example_result; calls := [] |}
  /\
  (* a new "text/csv" is recorded *)
  (exists st',
      (loop_body Z.leb CachedObservable example_url example_converter
                 {| toProcess := [{| mimeType := "text/csv"; cost := 1;
                                     data := CachedObservable (Stream 1) |}];
                    processed := example_seed;
                    calls := [] |} = Next st' \/
       exists x,
         loop_body Z.leb CachedObservable example_url example_converter
                   {| toProcess := [{| mimeType := "text/csv"; cost := 1;
                                       data := CachedObservable (Stream 1) |}];
                      processed := example_seed;
                      calls := [] |} = Raise x st') /\
      processed st' = example_result /\
      Map_get (processed st') "text/csv"
      = Some (1, CachedObservable (Stream 1)) /\
      calls st' = [{| url := example_url; in_mimeType := "text/csv";
                      in_cost := 1;
                      in_data := CachedObservable (Stream 1) |}])
  /\
  (* a second "text/csv" at the same cost leaves the first in place *)
  (exists st',
      loop_body Z.leb CachedObservable example_url example_converter
                {| toProcess := [{| mimeType := "text/csv"; cost := 1;
                                    data := CachedObservable (Stream 7) |}];
                   processed := example_result;
                   calls := [] |} = Next st' /\
      toProcess st' = [] /\
      calls st' = [] /\
      Map_get (processed st') "text/csv"
      = Some (1, CachedObservable (Stream 1))).
Proof.
  split; [|split].
  - exact (proj1 (loop_body_discards_or_records
                    Z.leb CachedObservable example_url example_converter
                    {| toProcess := [{| mimeType := "text/plain"; cost := 5;
                                        data := CachedObservable (Stream 2) |}];
                       processed := example_result;
                       calls := [] |}
                    eq_refl)
                 0 (CachedObservable (Stream 0)) eq_refl eq_refl).
  - exact (proj1 (proj2 (loop_body_discards_or_records
                    Z.leb CachedObservable example_url example_converter
                    {| toProcess := [{| mimeType := "text/csv"; cost := 1;
                                        data := CachedObservable (Stream 1) |}];
                       processed := example_seed;
                       calls := [] |}
                    eq_refl))
                 (or_introl eq_refl)).
  - exact (proj2 (proj2 (loop_body_discards_or_records
                    Z.leb CachedObservable example_url example_converter
                    {| toProcess := [{| mimeType := "text/csv"; cost := 1;
                                        data := CachedObservable (Stream 7) |}];
                       processed := example_result;
                       calls := [] |}
                    eq_refl))
                 Z.leb_refl (CachedObservable (Stream 1)) eq_refl).
Defined.

Lemma combineManyConverters_concat_witness :
  combineManyConverters
    [png_step string "text/plain" 3 (Stream 1);
     png_step string "text/plain" 2 (Stream 2)]
    {| url := example_url; in_mimeType := "text/plain"; in_cost := 0;
       in_data := CachedObservable (Stream 0) |}
  = Ok [{| mimeType := "image/png"; cost := 3; data := Stream 1 |};
        {| mimeType := "image/png"; cost := 2; data := Stream 2 |}]
  /\
  combineManyConverters
    [png_step string "text/plain" 2 (Stream 2);
     png_step string "text/csv" 4 (Stream 3);
     png_step string "text/plain" 3 (Stream 1)]
    {| url := example_url; in_mimeType := "text/plain"; in_cost := 0;
       in_data := CachedObservable (Stream 0) |}
  = Ok [{| mimeType := "image/png"; cost := 2; data := Stream 2 |};
        {| mimeType := "image/png"; cost := 3; data := Stream 1 |}].
Proof.
  split.
  - exact (proj2 (combineManyConverters_concat Z Handle string)
                 (png_step string "text/plain" 3 (Stream 1))
                 (png_step string "text/plain" 2 (Stream 2))
                 {| url := example_url; in_mimeType := "text/plain";
                    in_cost := 0; in_data := CachedObservable (Stream 0) |}
                 _ _ eq_refl eq_refl).
  - exact (proj1 (combineManyConverters_concat Z Handle string)
                 [png_step string "text/plain" 2 (Stream 2);
                  png_step string "text/csv" 4 (Stream 3);
                  png_step string "text/plain" 3 (Stream 1)]
                 {| url := example_url; in_mimeType := "text/plain";
                    in_cost := 0; in_data := CachedObservable (Stream 0) |}
                 [[{| mimeType := "image/png"; cost := 2; data := Stream 2 |}];
                  [];
                  [{| mimeType := "image/png"; cost := 3; data := Stream 1 |}]]
                 (Forall2_cons _ _ eq_refl
                    (Forall2_cons _ _ eq_refl
                       (Forall2_cons _ _ eq_refl (Forall2_nil _))))).
Defined.

Lemma applyConverterDataset_cached_witness :
  Forall (fun kv => instanceof_CachedObservable (snd (snd kv))) example_seed /\
  Forall (fun kv => instanceof_CachedObservable (snd (snd kv))) example_result.
Proof.
  split.
  - repeat constructor.
  - apply (applyConverterDataset_cached
             Z.leb CachedObservable instanceof_CachedObservable
             4 example_url example_converter (seed := example_seed)).
    + intros o. exact I.
    + repeat constructor.
    + reflexivity.
Defined.

Lemma plain_csv_loop_total Observable Exn (Hx Hy : Observable) :
  total (plain_csv_loop Exn Hx Hy).
Proof.
  intros d. unfold plain_csv_loop.
  destruct (String.eqb (in_mimeType d) "text/plain"); [eexists; reflexivity|].
  destruct (String.eqb (in_mimeType d) "text/csv"); eexists; reflexivity.
Qed.

Lemma applyConverterDataset_failure_witness :
  (completion (applyConverterDataset Z.leb CachedObservable 4 example_url
                                     example_seed example_failing_converter)
   = Thrown "unreadable" /\
   forall ds,
     completion (applyConverterDataset Z.leb CachedObservable 4 example_url
                                       example_seed example_failing_converter)
     <> Returned ds) /\
  (forall x,
      completion (applyConverterDataset Z.leb CachedObservable 4 example_url
                                        example_seed example_converter)
      <> Thrown x).
Proof.
  split.
  - apply (proj1 (applyConverterDataset_failure
                    Z.leb CachedObservable 4 example_url example_seed
                    example_failing_converter)
                 {| url := example_url; in_mimeType := "text/csv";
                    in_cost := 1; in_data := CachedObservable (Stream 1) |}).
    + simpl. right. left. reflexivity.
    + reflexivity.
  - apply (proj2 (applyConverterDataset_failure
                    Z.leb CachedObservable 4 example_url example_seed
                    example_converter)).
    apply plain_csv_loop_total.
Defined.

Lemma combineManyConverters_nil_witness :
  exists res,
    completion
      (applyConverterDataset Z.leb CachedObservable 3 example_url
                             example_result (combineManyConverters []))
    = @Returned _ _ string res /\
    (forall key, Map_get res key = Map_get example_result key) /\
    (forall key,
        option_map fst (Map_get res key)
        = option_map fst (Map_get example_result key)).
Proof.
  apply (proj2 (combineManyConverters_nil
                  Z.leb CachedObservable string example_url example_result)).
  repeat constructor; simpl; intuition discriminate.
Defined.

Lemma applyConverterDataset_ref_keeps_seed_witness :
  cells (final_heap (applyConverterDataset_ref
                       Z.leb CachedObservable 4 example_url 0%nat
                       example_converter example_heap)) 0%nat
  = example_seed /\
  completion_ref (applyConverterDataset_ref
                    Z.leb CachedObservable 4 example_url 0%nat
                    example_converter example_heap)
  = ReturnedRef 1%nat /\
  (1 <> 0)%nat.
Proof.
  destruct (applyConverterDataset_ref_keeps_seed
              Z.leb CachedObservable 4 example_url
              example_converter example_heap (dataset := 0%nat))
    as (Hseed & _ & Hret).
  - simpl. lia.
  - split; [exact Hseed|]. split; [reflexivity|].
    exact (proj2 (Hret 1%nat eq_refl)).
Defined.

Lemma png_cheapest_either_order_witness :
  (exists res,
      completion
        (applyConverterDataset Z.leb CachedObservable 4 example_url
           example_seed
           (combineManyConverters
              [png_step string "text/plain" 3 (Stream 1);
               png_step string "text/plain" 2 (Stream 2)]))
      = Returned res /\
      Map_get res "image/png" = Some (2, CachedObservable (Stream 2))) /\
  (exists res,
      completion
        (applyConverterDataset Z.leb CachedObservable 4 example_url
           example_seed
           (combineManyConverters
              [png_step string "text/plain" 2 (Stream 2);
               png_step string "text/plain" 3 (Stream 1)]))
      = Returned res /\
      Map_get res "image/png" = Some (2, CachedObservable (Stream 2))).
Proof.
  apply (png_cheapest_either_order
           string CachedObservable (source := "text/plain") 0
           (CachedObservable (Stream 0)) (Stream 1) (Stream 2)
           example_url 0).
  discriminate.
Defined.

(** * Further properties of the two functions *)

Section Runs.

Local Open Scope nat_scope.
Local Open Scope list_scope.

Variable Cost : Type.
Variable cost_le : Cost -> Cost -> bool.
Variable Observable : Type.
Variable CachedObservable_from : Observable -> Observable.
Variable Exn : Type.

Implicit Types (ds seed res : Dataset Cost Observable).
Implicit Types (converter : Converter Cost Observable Exn).
Implicit Types (st : LoopState Cost Observable).
Implicit Types (e : Entry Cost Observable).
Implicit Types (a : ConverterInput Cost Observable).

(** ** The two ways an iteration continues, and the way it fails *)

Lemma loop_body_Next_inv u converter st st' :
  loop_body cost_le CachedObservable_from u converter st = Next st' ->
  exists e rest,
    toProcess st = rest ++ [e] /\
    ((already_cheaper cost_le (processed st) (mimeType e) (cost e) = true /\
      st' = {| toProcess := rest;
               processed := processed st;
               calls := calls st |}) \/
     (already_cheaper cost_le (processed st) (mimeType e) (cost e) = false /\
      exists candidates,
        converter {| url := u; in_mimeType := mimeType e;
                     in_cost := cost e; in_data := data e |}
        = Ok candidates /\
        st' = {| toProcess := rest ++ map (cache CachedObservable_from) candidates;
                 processed := Map_set (processed st) (mimeType e) (cost e, data e);
                 calls := calls st ++
                          [{| url := u; in_mimeType := mimeType e;
                              in_cost := cost e; in_data := data e |}] |})).
Proof.
  unfold loop_body.
  destruct (pop (toProcess st)) as [[e rest]|] eqn:Hpop; [|discriminate].
  apply pop_Some in Hpop. intros H. exists e, rest. split; [assumption|].
  destruct (already_cheaper cost_le (processed st) (mimeType e) (cost e)).
  - left. split; [reflexivity|]. now inversion H.
  - right. split; [reflexivity|].
    destruct (converter _) as [candidates|x]; [|discriminate].
    exists candidates. split; [reflexivity|]. now inversion H.
Qed.

Lemma loop_body_Raise_inv u converter st x st' :
  loop_body cost_le CachedObservable_from u converter st = Raise x st' ->
  exists e rest,
    toProcess st = rest ++ [e] /\
    already_cheaper cost_le (processed st) (mimeType e) (cost e) = false /\
    converter {| url := u; in_mimeType := mimeType e;
                 in_cost := cost e; in_data := data e |} = Throw x /\
    st' = {| toProcess := rest;
             processed := Map_set (processed st) (mimeType e) (cost e, data e);
             calls := calls st ++
                      [{| url := u; in_mimeType := mimeType e;
                          in_cost := cost e; in_data := data e |}] |}.
Proof.
  unfold loop_body.
  destruct (pop (toProcess st)) as [[e rest]|] eqn:Hpop; [|discriminate].
  apply pop_Some in Hpop. intros H. exists e, rest. split; [assumption|].
  destruct (already_cheaper cost_le (processed st) (mimeType e) (cost e));
    [discriminate|].
  split; [reflexivity|].
  destruct (converter _) as [candidates|x0]; [discriminate|].
  inversion H; subst. auto.
Qed.

(** A property of the loop state that every continuing iteration keeps
    holds in the state the run ends in. *)
Lemma while_loop_final u converter (I : LoopState Cost Observable -> Prop) :
  (forall st st',
      I st ->
      loop_body cost_le CachedObservable_from u converter st = Next st' ->
      I st') ->
  forall fuel st,
    I st ->
    match completion (while_loop cost_le CachedObservable_from fuel u converter st) with
    | Returned res =>
        exists st', I st' /\ toProcess st' = [] /\ processed st' = res /\
                    calls st' =
                    invoked (while_loop cost_le CachedObservable_from
                                        fuel u converter st)
    | Thrown x =>
        exists st0 st',
          I st0 /\
          loop_body cost_le CachedObservable_from u converter st0 = Raise x st' /\
          calls st' =
          invoked (while_loop cost_le CachedObservable_from fuel u converter st)
    | OutOfFuel =>
        exists st', I st' /\
                    calls st' =
                    invoked (while_loop cost_le CachedObservable_from
                                        fuel u converter st)
    end.
Proof.
  intros Hkeep. induction fuel as [|fuel IH]; intros st HI; simpl.
  - exists st. auto.
  - destruct (loop_body cost_le CachedObservable_from u converter st)
      as [|st'|x st'] eqn:Hbody; simpl.
    + exists st. repeat split; auto. now apply loop_body_Exit in Hbody.
    + apply IH. eapply Hkeep; eauto.
    + exists st, st'. auto.
Qed.

(** ** The empty seed *)

(** X1.  On an empty seed the call returns the empty dataset at its first
    test of the loop condition, without invoking the converter, whatever
    the converter is. *)
Theorem applyConverterDataset_empty fuel u converter :
  applyConverterDataset cost_le CachedObservable_from (S fuel) u [] converter
  = {| invoked := []; completion := Returned [] |}.
Proof. reflexivity. Qed.

(** ** The returned map *)

Lemma Map_set_keys ds key value value' :
  Map_get ds key = Some value' ->
  map fst (Map_set ds key value) = map fst ds.
Proof.
  induction ds as [|[k v] rest IH]; simpl; [discriminate|].
  destruct (String.eqb k key) eqn:E; simpl.
  - reflexivity.
  - intros H. now rewrite IH.
Qed.

Lemma Map_set_wf ds key value : Map_wf ds -> Map_wf (Map_set ds key value).
Proof.
  unfold Map_wf. intros Hwf.
  destruct (Map_get ds key) as [value'|] eqn:Hget.
  - now rewrite (Map_set_keys ds key value Hget).
  - rewrite (Map_set_fresh ds key value Hget), map_app. simpl.
    apply NoDup_rev in Hwf. rewrite <- rev_involutive.
    apply NoDup_rev. rewrite rev_app_distr. simpl. constructor; [|assumption].
    rewrite <- in_rev. now apply Map_get_not_In.
Qed.

Lemma In_Map_set_eq ds key value (kv : MimeType_ * (Cost * Observable)) :
  In kv (Map_set ds key value) -> kv = (key, value) \/ In kv ds.
Proof.
  induction ds as [|[k v] rest IH]; simpl.
  - intros [<-|[]]. now left.
  - destruct (String.eqb k key) eqn:E; simpl.
    + apply String.eqb_eq in E. subst k. intros [<-|H]; auto.
    + intros [<-|H]; auto. destruct (IH H); auto.
Qed.

(** X2.  The dataset a call returns holds every mimetype once, whatever
    list of entries the seed is. *)
Theorem applyConverterDataset_unique_keys fuel u seed converter res :
  completion
    (applyConverterDataset cost_le CachedObservable_from fuel u seed converter)
  = Returned res ->
  Map_wf res.
Proof.
  intros Hrun. unfold applyConverterDataset in Hrun.
  assert (Hkeep : forall st st',
             Map_wf (processed st) ->
             loop_body cost_le CachedObservable_from u converter st = Next st' ->
             Map_wf (processed st')).
  { intros st st' HI Hbody. apply loop_body_Next_inv in Hbody.
    destruct Hbody as (e & rest & _ & [[_ ->]|[_ (cs & _ & ->)]]); simpl.
    - assumption.
    - now apply Map_set_wf. }
  pose proof (while_loop_final u converter
                (fun st => Map_wf (processed st)) Hkeep fuel
                {| toProcess := entries seed; processed := []; calls := [] |}
                (NoDup_nil _)) as F.
  rewrite Hrun in F. destruct F as (st' & HI & _ & <- & _). exact HI.
Qed.

(** X3.  Every entry of a returned dataset has been passed to the
    converter during the call, and the converter returned on it: also an
    entry that replaced a dearer one is expanded. *)
Theorem applyConverterDataset_entries_expanded fuel u seed converter res :
  completion
    (applyConverterDataset cost_le CachedObservable_from fuel u seed converter)
  = Returned res ->
  forall key value,
    Map_get res key = Some value ->
    In (input_of u key value)
       (invoked (applyConverterDataset cost_le CachedObservable_from
                                       fuel u seed converter)) /\
    returns converter (input_of u key value).
Proof.
  intros Hrun. unfold applyConverterDataset in *.
  pose (I := fun st =>
    forall key value,
      Map_get (processed st) key = Some value ->
      In (input_of u key value) (calls st) /\
      returns converter (input_of u key value)).
  assert (Hkeep : forall st st',
             I st ->
             loop_body cost_le CachedObservable_from u converter st = Next st' ->
             I st').
  { intros st st' HI Hbody. apply loop_body_Next_inv in Hbody.
    destruct Hbody as (e & rest & _ & [[_ ->]|[_ (cs & Hconv & ->)]]).
    - exact HI.
    - intros key value Hget. simpl in *.
      destruct (String.eqb key (mimeType e)) eqn:E.
      + apply String.eqb_eq in E. subst key.
        rewrite Map_get_set_same in Hget. inversion Hget; subst value.
        split.
        * apply in_or_app. right. now left.
        * now exists cs.
      + apply String.eqb_neq in E.
        rewrite Map_get_set_other in Hget by assumption.
        destruct (HI key value Hget) as [Hin Hret].
        split; [apply in_or_app; now left|assumption]. }
  pose proof (while_loop_final u converter I Hkeep fuel
                {| toProcess := entries seed; processed := []; calls := [] |})
    as F.
  rewrite Hrun in F. destruct F as (st' & HI & _ & <- & <-).
  - intros key value Hget. discriminate.
  - exact HI.
Qed.

Lemma origin_more_log seed converter log more e :
  origin CachedObservable_from seed converter log e ->
  origin CachedObservable_from seed converter (log ++ more) e.
Proof.
  intros [Hseed|(a & cs & c & Hin & Hconv & Hc & ->)]; [now left|right].
  exists a, cs, c. repeat split; auto. apply in_or_app. now left.
Qed.

Lemma origin_entries seed converter e :
  In e (entries seed) -> origin CachedObservable_from seed converter [] e.
Proof.
  unfold entries. intros Hin. apply in_map_iff in Hin.
  destruct Hin as ([key [c h]] & <- & Hin). left. exact Hin.
Qed.

(** What the loop keeps true of where its entries come from. *)
Lemma origin_kept u seed converter st st' :
  (forall e, In e (toProcess st) ->
             origin CachedObservable_from seed converter (calls st) e) ->
  loop_body cost_le CachedObservable_from u converter st = Next st' ->
  (forall e, In e (toProcess st') ->
             origin CachedObservable_from seed converter (calls st') e).
Proof.
  intros Hwork Hbody. apply loop_body_Next_inv in Hbody.
  destruct Hbody as (e & rest & Hsplit & [[_ ->]|[_ (cs & Hconv & ->)]]);
    simpl; intros e' Hin.
  - apply Hwork. rewrite Hsplit. apply in_or_app. now left.
  - apply in_app_or in Hin. destruct Hin as [Hin|Hin].
    + apply origin_more_log. apply Hwork. rewrite Hsplit.
      apply in_or_app. now left.
    + apply in_map_iff in Hin. destruct Hin as (c & <- & Hin). right.
      exists {| url := u; in_mimeType := mimeType e;
                in_cost := cost e; in_data := data e |}, cs, c.
      repeat split; auto. apply in_or_app. right. now left.
Qed.

Lemma result_origin fuel u seed converter res :
  completion
    (applyConverterDataset cost_le CachedObservable_from fuel u seed converter)
  = Returned res ->
  forall key c h,
    In (key, (c, h)) res ->
    In (key, (c, h)) seed \/
    offered CachedObservable_from converter
            (invoked (applyConverterDataset cost_le CachedObservable_from
                                            fuel u seed converter))
            {| mimeType := key; cost := c; data := h |}.
Proof.
  intros Hrun. unfold applyConverterDataset in *.
  pose (I := fun st =>
    (forall e, In e (toProcess st) ->
               origin CachedObservable_from seed converter (calls st) e) /\
    (forall key c h,
        In (key, (c, h)) (processed st) ->
        origin CachedObservable_from seed converter (calls st)
               {| mimeType := key; cost := c; data := h |})).
  assert (Hkeep : forall st st',
             I st ->
             loop_body cost_le CachedObservable_from u converter st = Next st' ->
             I st').
  { intros st st' [Hwork Hproc] Hbody.
    split; [eapply origin_kept; eauto|].
    apply loop_body_Next_inv in Hbody.
    destruct Hbody as (e & rest & Hsplit & [[_ ->]|[_ (cs & Hconv & ->)]]);
      simpl; [exact Hproc|].
    intros key c h Hin. apply In_Map_set_eq in Hin.
    destruct Hin as [Heq|Hin].
    - inversion Heq; subst. apply origin_more_log.
      destruct e as [m c h]. apply Hwork. rewrite Hsplit.
      apply in_or_app. right. now left.
    - apply origin_more_log. now apply Hproc. }
  pose proof (while_loop_final u converter I Hkeep fuel
                {| toProcess := entries seed; processed := []; calls := [] |})
    as F.
  rewrite Hrun in F. destruct F as (st' & [_ Hproc] & _ & <- & <-).
  - split; simpl.
    + intros e. apply origin_entries.
    + intros key c h [].
  - exact Hproc.
Qed.

(** X4.  Every entry of a returned dataset is an entry of the seed, with
    the seed's own handle, or the cached form of a candidate that the
    converter returned during the call: the engine makes up no mimetype, no
    cost and no handle. *)
Theorem applyConverterDataset_provenance fuel u seed converter res :
  completion
    (applyConverterDataset cost_le CachedObservable_from fuel u seed converter)
  = Returned res ->
  forall key c h,
    In (key, (c, h)) res ->
    In (key, (c, h)) seed \/
    offered CachedObservable_from converter
            (invoked (applyConverterDataset cost_le CachedObservable_from
                                            fuel u seed converter))
            {| mimeType := key; cost := c; data := h |}.
Proof. exact (@result_origin fuel u seed converter res). Qed.

(** ** The calls of the converter *)

Lemma snoc_split A (log l1 l2 : list A) (x a : A) :
  log ++ [x] = l1 ++ a :: l2 ->
  (l2 = [] /\ a = x /\ l1 = log) \/
  exists l2', l2 = l2' ++ [x] /\ log = l1 ++ a :: l2'.
Proof.
  destruct l2 as [|b l2] using rev_ind; intros H.
  - left. apply app_inj_tail in H. destruct H as [-> ->]. auto.
  - right. exists l2.
    change (l1 ++ a :: l2 ++ [b]) with (l1 ++ (a :: l2) ++ [b]) in H.
    rewrite app_assoc in H. apply app_inj_tail in H.
    destruct H as [-> ->]. auto.
Qed.

(** X5.  Every argument the converter is invoked on carries the url of
    the call, and its mimetype, cost and handle are those of a seed entry
    or of the cached form of a candidate that an earlier invocation
    returned.  This holds however the call ends. *)
Theorem applyConverterDataset_calls_origin fuel u seed converter :
  forall log a later,
    invoked (applyConverterDataset cost_le CachedObservable_from
                                   fuel u seed converter)
    = log ++ a :: later ->
    url a = u /\
    origin CachedObservable_from seed converter log (input_entry a).
Proof.
  unfold applyConverterDataset.
  pose (J := fun calls : list (ConverterInput Cost Observable) =>
    forall log a later,
      calls = log ++ a :: later ->
      url a = u /\
      origin CachedObservable_from seed converter log (input_entry a)).
  pose (I := fun st =>
    (forall e, In e (toProcess st) ->
               origin CachedObservable_from seed converter (calls st) e) /\
    J (calls st)).
  assert (Hcall : forall st e rest,
             I st -> toProcess st = rest ++ [e] ->
             J (calls st ++ [{| url := u; in_mimeType := mimeType e;
                                in_cost := cost e; in_data := data e |}])).
  { intros st e rest [Hwork HJ] Hsplit log a later Heq.
    apply snoc_split in Heq.
    destruct Heq as [(-> & -> & ->)|(later' & -> & Heq)].
    - split; [reflexivity|]. unfold input_entry. simpl.
      destruct e as [m c h]. apply Hwork. rewrite Hsplit.
      apply in_or_app. right. now left.
    - exact (HJ log a later' Heq). }
  assert (Hkeep : forall st st',
             I st ->
             loop_body cost_le CachedObservable_from u converter st = Next st' ->
             I st').
  { intros st st' HI Hbody.
    split; [destruct HI; eapply origin_kept; eauto|].
    apply loop_body_Next_inv in Hbody.
    destruct Hbody as (e & rest & Hsplit & [[_ ->]|[_ (cs & Hconv & ->)]]);
      simpl.
    - apply HI.
    - eapply Hcall; eauto. }
  assert (Hinit : I {| toProcess := entries seed; processed := []; calls := [] |}).
  { split; simpl.
    - intros e. apply origin_entries.
    - intros [|? ?] a later Heq; discriminate. }
  pose proof (while_loop_final u converter I Hkeep fuel _ Hinit) as F.
  destruct (completion (while_loop cost_le CachedObservable_from fuel u converter
              {| toProcess := entries seed; processed := []; calls := [] |}))
    as [res|x|].
  - destruct F as (st' & [_ HJ] & _ & _ & <-). exact HJ.
  - destruct F as (st0 & st' & HI & Hbody & <-).
    apply loop_body_Raise_inv in Hbody.
    destruct Hbody as (e & rest & Hsplit & _ & _ & ->). simpl.
    eapply Hcall; eauto.
  - destruct F as (st' & [_ HJ] & <-). exact HJ.
Qed.

(** X6.  A call that ends with the failure [x] has invoked the converter
    last on an argument on which it throws [x], and the converter returned
    on every argument before; a call that ends otherwise has only invoked
    the converter on arguments on which it returns. *)
Theorem applyConverterDataset_thrown_last fuel u seed converter :
  match completion (applyConverterDataset cost_le CachedObservable_from
                                          fuel u seed converter) with
  | Thrown x =>
      exists log a,
        invoked (applyConverterDataset cost_le CachedObservable_from
                                       fuel u seed converter) = log ++ [a] /\
        converter a = Throw x /\
        Forall (returns converter) log
  | _ =>
      Forall (returns converter)
             (invoked (applyConverterDataset cost_le CachedObservable_from
                                             fuel u seed converter))
  end.
Proof.
  unfold applyConverterDataset.
  assert (Hkeep : forall st st',
             Forall (returns converter) (calls st) ->
             loop_body cost_le CachedObservable_from u converter st = Next st' ->
             Forall (returns converter) (calls st')).
  { intros st st' HI Hbody. apply loop_body_Next_inv in Hbody.
    destruct Hbody as (e & rest & _ & [[_ ->]|[_ (cs & Hconv & ->)]]); simpl.
    - exact HI.
    - apply Forall_app. split; [exact HI|].
      constructor; [now exists cs|constructor]. }
  pose proof (while_loop_final u converter
                (fun st => Forall (returns converter) (calls st)) Hkeep fuel
                {| toProcess := entries seed; processed := []; calls := [] |}
                (Forall_nil _)) as F.
  destruct (completion (while_loop cost_le CachedObservable_from fuel u converter
              {| toProcess := entries seed; processed := []; calls := [] |}))
    as [res|x|].
  - destruct F as (st' & HI & _ & _ & <-). exact HI.
  - destruct F as (st0 & st' & HI & Hbody & <-).
    apply loop_body_Raise_inv in Hbody.
    destruct Hbody as (e & rest & _ & _ & Hthrow & ->). simpl.
    eexists _, _. split; [reflexivity|]. split; assumption.
  - destruct F as (st' & HI & <-). exact HI.
Qed.

Lemma ForallOrdPairs_snoc A (R : A -> A -> Prop) (l : list A) (x : A) :
  ForallOrdPairs R l -> Forall (fun y => R y x) l ->
  ForallOrdPairs R (l ++ [x]).
Proof.
  induction 1 as [|y l Hy Hl IH]; intros Hx; simpl.
  - constructor; constructor.
  - inversion Hx as [|? ? Hyx Hlx]; subst. constructor.
    + apply Forall_app. split; [assumption|]. constructor; [assumption|constructor].
    + now apply IH.
Qed.

Lemma Map_has_set ds key value key' :
  Map_has ds key' = true \/ key' = key ->
  Map_has (Map_set ds key value) key' = true.
Proof.
  unfold Map_has. intros H.
  destruct (String.eqb key' key) eqn:E.
  - apply String.eqb_eq in E. subst key'. now rewrite Map_get_set_same.
  - apply String.eqb_neq in E. rewrite Map_get_set_other by assumption.
    destruct H as [H|H]; [assumption|contradiction].
Qed.

Lemma already_cheaper_has ds key c :
  already_cheaper cost_le ds key c = true -> Map_has ds key = true.
Proof.
  unfold already_cheaper. intros H. now apply andb_prop in H.
Qed.

(** X7.  A returned dataset holds exactly the mimetypes of the seed and
    the mimetypes of the candidates that the converter returned during the
    call. *)
Theorem applyConverterDataset_domain fuel u seed converter res :
  completion
    (applyConverterDataset cost_le CachedObservable_from fuel u seed converter)
  = Returned res ->
  forall key,
    Map_has res key = true <->
    (In key (map fst seed) \/
     exists a candidates c,
       In a (invoked (applyConverterDataset cost_le CachedObservable_from
                                            fuel u seed converter)) /\
       converter a = Ok candidates /\ In c candidates /\ mimeType c = key).
Proof.
  intros Hrun key. split.
  - unfold Map_has. destruct (Map_get res key) as [[c h]|] eqn:Hget;
      [intros _|discriminate].
    apply Map_get_In in Hget.
    destruct (result_origin fuel u seed converter Hrun key c h Hget)
      as [Hseed|(a & cs & c0 & Hin & Hconv & Hc & Heq)].
    + left. change key with (fst (key, (c, h))). now apply in_map.
    + right. exists a, cs, c0. repeat split; auto. now inversion Heq.
  - unfold applyConverterDataset in *.
    pose (pending := fun st k =>
      (exists e, In e (toProcess st) /\ mimeType e = k) \/
      Map_has (processed st) k = true).
    pose (I := fun st =>
      (forall k, In k (map fst seed) -> pending st k) /\
      (forall a cs c, In a (calls st) -> converter a = Ok cs -> In c cs ->
                      pending st (mimeType c))).
    assert (Hpend : forall st st' k,
               loop_body cost_le CachedObservable_from u converter st = Next st' ->
               pending st k -> pending st' k).
    { intros st st' k Hbody Hk. apply loop_body_Next_inv in Hbody.
      destruct Hbody as (e & rest & Hsplit & [[Hskip ->]|[_ (cs & Hconv & ->)]]);
        unfold pending in *; simpl;
        (destruct Hk as [(e0 & Hin & Hm)|Hhas];
         [rewrite Hsplit in Hin; apply in_app_or in Hin;
          destruct Hin as [Hin|[<-|[]]]|]).
      - left. now exists e0.
      - right. rewrite <- Hm. now apply already_cheaper_has in Hskip.
      - now right.
      - left. exists e0. split; [apply in_or_app; now left|assumption].
      - right. apply Map_has_set. now right.
      - right. apply Map_has_set. now left. }
    assert (Hkeep : forall st st',
               I st ->
               loop_body cost_le CachedObservable_from u converter st = Next st' ->
               I st').
    { intros st st' [Hseed Hcalls] Hbody. split.
      - intros k Hk. eapply Hpend; eauto.
      - intros a cs c Hin Hconv Hc.
        pose proof Hbody as Hbody'. apply loop_body_Next_inv in Hbody'.
        destruct Hbody' as (e & rest & Hsplit & [[_ Heq]|[_ (cs0 & Hconv0 & Heq)]]).
        + eapply Hpend; eauto. apply (Hcalls a cs c); auto.
          subst st'. exact Hin.
        + assert (Hin' : In a (calls st) \/
                         a = {| url := u; in_mimeType := mimeType e;
                                in_cost := cost e; in_data := data e |}).
          { subst st'. simpl in Hin. apply in_app_or in Hin.
            destruct Hin as [Hin|[<-|[]]]; auto. }
          destruct Hin' as [Hin'| ->].
          * eapply Hpend; eauto.
          * rewrite Hconv0 in Hconv. inversion Hconv; subst cs0.
            subst st'. left. exists (cache CachedObservable_from c).
            split; [|reflexivity]. simpl. apply in_or_app. right.
            now apply in_map. }
    assert (Hinit : I {| toProcess := entries seed; processed := []; calls := [] |}).
    { split.
      - intros k Hk. left. simpl. apply in_map_iff in Hk.
        destruct Hk as (kv & <- & Hin).
        exists {| mimeType := fst kv; cost := fst (snd kv); data := snd (snd kv) |}.
        split; [|reflexivity]. unfold entries.
        apply in_map_iff. now exists kv.
      - intros a cs c []. }
    pose proof (while_loop_final u converter I Hkeep fuel _ Hinit) as F.
    rewrite Hrun in F. destruct F as (st' & [Hseed Hcalls] & Hempty & <- & <-).
    assert (Hdone : forall k, pending st' k -> Map_has (processed st') k = true).
    { intros k [(e & Hin & _)|Hhas]; [|assumption].
      rewrite Hempty in Hin. destruct Hin. }
    intros [Hk|(a & cs & c & Hin & Hconv & Hc & <-)].
    + apply Hdone. now apply Hseed.
    + apply Hdone. now apply (Hcalls a cs c).
Qed.

(** ** The calls under a totally ordered cost *)

Section OrderedRuns.

Hypothesis cost_le_total :
  forall c1 c2, cost_le c1 c2 = true \/ cost_le c2 c1 = true.
Hypothesis cost_le_trans :
  forall c1 c2 c3,
    cost_le c1 c2 = true -> cost_le c2 c3 = true -> cost_le c1 c3 = true.

(** Recording an entry that was not skipped keeps the call log ordered and
    every logged cost covered. *)
Lemma cheaper_calls_step ds (log : list (ConverterInput Cost Observable))
      u e :
  ForallOrdPairs (cheaper_call cost_le) log ->
  (forall a, In a log -> covers cost_le ds (in_mimeType a) (in_cost a)) ->
  already_cheaper cost_le ds (mimeType e) (cost e) = false ->
  ForallOrdPairs (cheaper_call cost_le)
                 (log ++ [{| url := u; in_mimeType := mimeType e;
                             in_cost := cost e; in_data := data e |}]) /\
  (forall a,
      In a (log ++ [{| url := u; in_mimeType := mimeType e;
                       in_cost := cost e; in_data := data e |}]) ->
      covers cost_le (Map_set ds (mimeType e) (cost e, data e))
             (in_mimeType a) (in_cost a)).
Proof.
  intros Hord Hcov Hskip. split.
  - apply ForallOrdPairs_snoc; [assumption|].
    apply Forall_forall. intros a Hin Hsame. simpl in *.
    destruct (Hcov a Hin) as (c' & h' & Hget & Hle).
    apply already_cheaper_false in Hskip.
    destruct Hskip as [Hnone|(c2 & h2 & Hget2 & Hnle)]; [congruence|].
    rewrite Hsame, Hget2 in Hget. inversion Hget; subst c2 h2.
    destruct (cost_le (in_cost a) (cost e)) eqn:E; [|reflexivity].
    rewrite (cost_le_trans Hle E) in Hnle. discriminate.
  - intros a Hin. apply in_app_or in Hin. destruct Hin as [Hin|[<-|[]]].
    + eapply covers_set_mono; eauto.
    + simpl. eapply covers_set_same; eauto.
Qed.

(** X8.  Two invocations of the converter on the same mimetype are at
    strictly decreasing costs: once a mimetype has been expanded at a cost,
    it is never expanded again at that cost or a higher one.  This holds
    however the call ends. *)
Theorem applyConverterDataset_calls_decrease fuel u seed converter :
  ForallOrdPairs (cheaper_call cost_le)
                 (invoked (applyConverterDataset cost_le CachedObservable_from
                                                 fuel u seed converter)).
Proof.
  unfold applyConverterDataset.
  pose (I := fun st =>
    ForallOrdPairs (cheaper_call cost_le) (calls st) /\
    (forall a, In a (calls st) ->
               covers cost_le (processed st) (in_mimeType a) (in_cost a))).
  assert (Hkeep : forall st st',
             I st ->
             loop_body cost_le CachedObservable_from u converter st = Next st' ->
             I st').
  { intros st st' [Hord Hcov] Hbody. apply loop_body_Next_inv in Hbody.
    destruct Hbody as (e & rest & _ & [[_ ->]|[Hskip (cs & _ & ->)]]); simpl.
    - split; assumption.
    - now apply cheaper_calls_step. }
  assert (Hinit : I {| toProcess := entries seed; processed := []; calls := [] |}).
  { split; simpl; [constructor|intros a []]. }
  pose proof (while_loop_final u converter I Hkeep fuel _ Hinit) as F.
  destruct (completion (while_loop cost_le CachedObservable_from fuel u converter
              {| toProcess := entries seed; processed := []; calls := [] |}))
    as [res|x|].
  - destruct F as (st' & [Hord _] & _ & _ & <-). exact Hord.
  - destruct F as (st0 & st' & [Hord Hcov] & Hbody & <-).
    apply loop_body_Raise_inv in Hbody.
    destruct Hbody as (e & rest & _ & Hskip & _ & ->). simpl.
    edestruct cheaper_calls_step as [H _];
      [exact Hord|exact Hcov|exact Hskip|exact H].
  - destruct F as (st' & [Hord _] & <-). exact Hord.
Qed.

(** X9.  A returned dataset covers every candidate that the converter
    returned during the call, also the candidates of entries that were
    replaced later: it holds the candidate's mimetype at a cost that is at
    most the candidate's. *)
Theorem applyConverterDataset_covers_candidates fuel u seed converter res :
  completion
    (applyConverterDataset cost_le CachedObservable_from fuel u seed converter)
  = Returned res ->
  forall a candidates c,
    In a (invoked (applyConverterDataset cost_le CachedObservable_from
                                         fuel u seed converter)) ->
    converter a = Ok candidates ->
    In c candidates ->
    exists c' h,
      Map_get res (mimeType c) = Some (c', h) /\ cost_le c' (cost c) = true.
Proof.
  intros Hrun. unfold applyConverterDataset in *.
  pose (I := fun st =>
    forall a cs c,
      In a (calls st) -> converter a = Ok cs -> In c cs ->
      (exists e, In e (toProcess st) /\
                 mimeType e = mimeType c /\ cost e = cost c) \/
      covers cost_le (processed st) (mimeType c) (cost c)).
  assert (Hkeep : forall st st',
             I st ->
             loop_body cost_le CachedObservable_from u converter st = Next st' ->
             I st').
  { intros st st' HI Hbody. apply loop_body_Next_inv in Hbody.
    destruct Hbody as (e & rest & Hsplit & [[Hskip ->]|[Hskip (cs0 & Hconv0 & ->)]]);
      intros a cs c Hin Hconv Hc; simpl in *.
    - destruct (HI a cs c Hin Hconv Hc) as [(e0 & Hin0 & Hm & Hcost)|Hcov];
        [|now right].
      rewrite Hsplit in Hin0. apply in_app_or in Hin0.
      destruct Hin0 as [Hin0|[<-|[]]].
      + left. now exists e0.
      + right. rewrite <- Hm, <- Hcost. now apply already_cheaper_true.
    - apply in_app_or in Hin. destruct Hin as [Hin|[<-|[]]].
      + destruct (HI a cs c Hin Hconv Hc) as [(e0 & Hin0 & Hm & Hcost)|Hcov].
        * rewrite Hsplit in Hin0. apply in_app_or in Hin0.
          destruct Hin0 as [Hin0|[<-|[]]].
          -- left. exists e0. repeat split; auto. apply in_or_app. now left.
          -- right. rewrite <- Hm, <- Hcost. eapply covers_set_same; eauto.
        * right. eapply covers_set_mono; eauto.
      + rewrite Hconv0 in Hconv. inversion Hconv; subst cs0.
        left. exists (cache CachedObservable_from c). repeat split.
        apply in_or_app. right. now apply in_map. }
  assert (Hinit : I {| toProcess := entries seed; processed := []; calls := [] |})
    by (intros a cs c []).
  pose proof (while_loop_final u converter I Hkeep fuel _ Hinit) as F.
  rewrite Hrun in F. destruct F as (st' & HI & Hempty & <- & <-).
  intros a cs c Hin Hconv Hc.
  destruct (HI a cs c Hin Hconv Hc) as [(e0 & Hin0 & _)|Hcov]; [|exact Hcov].
  rewrite Hempty in Hin0. destruct Hin0.
Qed.

End OrderedRuns.

(** ** A converter without candidates *)

Lemma while_loop_no_candidates_run u converter :
  (forall d, converter d = Ok []) ->
  forall seed ds log extra,
    NoDup (map fst seed) ->
    (forall key, In key (map fst seed) -> Map_get ds key = None) ->
    while_loop cost_le CachedObservable_from
               (S (List.length seed) + extra) u converter
               {| toProcess := entries seed; processed := ds; calls := log |}
    = {| invoked := log ++ map (fun kv => input_of u (fst kv) (snd kv)) (rev seed);
         completion := Returned (ds ++ rev seed) |}.
Proof.
  intros Hnone seed.
  induction seed as [|[key value] seed IH] using rev_ind;
    intros ds log extra Hnd Hfresh.
  - simpl. now rewrite !app_nil_r.
  - rewrite length_app, Nat.add_comm with (n := List.length seed). simpl.
    unfold loop_body. simpl toProcess. rewrite entries_snoc, pop_snoc. simpl.
    assert (Hget : Map_get ds key = None).
    { apply Hfresh. rewrite map_app. apply in_or_app. right. now left. }
    assert (Hskip : already_cheaper cost_le ds key (fst value) = false)
      by (apply already_cheaper_false; now left).
    rewrite Hskip, Hnone. simpl. rewrite app_nil_r.
    rewrite map_app in Hnd. apply NoDup_remove in Hnd. simpl in Hnd.
    rewrite app_nil_r in Hnd. destruct Hnd as [Hnd Hnotin].
    rewrite rev_app_distr. simpl.
    rewrite (Map_set_fresh ds key _ Hget).
    destruct value as [c h]. simpl.
    etransitivity.
    + apply (IH (ds ++ [(key, (c, h))])
                (log ++ [{| url := u; in_mimeType := key;
                            in_cost := c; in_data := h |}])
                extra Hnd).
      intros key' Hin.
      assert (Hne : key' <> key) by (intros ->; contradiction).
      rewrite <- (Map_set_fresh ds key (c, h) Hget).
      rewrite Map_get_set_other by assumption.
      apply Hfresh. rewrite map_app. apply in_or_app. now left.
    + unfold input_of. simpl. now rewrite <- !app_assoc.
Qed.

(** X10.  With a converter that returns no candidate for any entry, the
    call on a seed returns the seed's entries with their own handles, in
    the reverse of the seed's key order, after invoking the converter once
    on each entry, last entry first. *)
Theorem applyConverterDataset_no_candidates u seed converter extra :
  (forall d, converter d = Ok []) ->
  Map_wf seed ->
  applyConverterDataset cost_le CachedObservable_from
                        (S (List.length seed) + extra) u seed converter
  = {| invoked := map (fun kv => input_of u (fst kv) (snd kv)) (rev seed);
       completion := Returned (rev seed) |}.
Proof.
  intros Hnone Hwf. unfold applyConverterDataset.
  rewrite while_loop_no_candidates_run; auto.
Qed.

(** ** The combinator, failures included *)

Lemma combineManyConverters_cons (c : Converter Cost Observable Exn)
      (converters : list (Converter Cost Observable Exn)) d :
  combineManyConverters (c :: converters) d =
  (l <- c d ;; ls <- combineManyConverters converters d ;; Ok (l ++ ls)).
Proof.
  unfold combineManyConverters. simpl.
  destruct (c d) as [l|x]; simpl; [|reflexivity].
  destruct (Array_map (fun c0 => c0 d) converters) as [lists|x]; simpl;
    [|reflexivity].
  now rewrite !fold_concat.
Qed.

Lemma combineManyConverters_app
      (before after : list (Converter Cost Observable Exn)) d :
  combineManyConverters (before ++ after) d =
  (l1 <- combineManyConverters before d ;;
   l2 <- combineManyConverters after d ;;
   Ok (l1 ++ l2)).
Proof.
  induction before as [|c before IH].
  - simpl. change (combineManyConverters (@nil (Converter Cost Observable Exn)) d)
      with (@Ok Exn _ (@nil (Entry Cost Observable))).
    simpl. destruct (combineManyConverters after d); reflexivity.
  - change ((c :: before) ++ after) with (c :: (before ++ after)).
    rewrite !combineManyConverters_cons, IH.
    destruct (c d) as [l|x]; simpl; [|reflexivity].
    destruct (combineManyConverters before d) as [l1|x]; simpl; [|reflexivity].
    destruct (combineManyConverters after d) as [l2|x]; simpl; [|reflexivity].
    now rewrite app_assoc.
Qed.

(** X11.  When the steps before [c] return for the entry [d] and [c]
    throws [x] on it, the combined converter throws [x] on [d], whatever
    the steps after [c] are. *)
Theorem combineManyConverters_first_failure
        (before after : list (Converter Cost Observable Exn))
        (c : Converter Cost Observable Exn) d lists x :
  Forall2 (fun c0 l => c0 d = Ok l) before lists ->
  c d = Throw x ->
  combineManyConverters (before ++ c :: after) d = Throw x.
Proof.
  intros Hbefore Hc.
  induction Hbefore as [|c0 l before lists Hc0 _ IH]; simpl app;
    rewrite combineManyConverters_cons.
  - now rewrite Hc.
  - rewrite Hc0, IH. reflexivity.
Qed.

(** X12.  Combining combined converters is combining the steps of all of
    them in one list: for every entry both return the same candidates or
    throw the same failure. *)
Theorem combineManyConverters_flatten
        (groups : list (list (Converter Cost Observable Exn))) d :
  combineManyConverters (map (@combineManyConverters _ _ _) groups) d
  = combineManyConverters (List.concat groups) d.
Proof.
  induction groups as [|group groups IH].
  - reflexivity.
  - simpl. rewrite combineManyConverters_cons, combineManyConverters_app, IH.
    reflexivity.
Qed.

(** X13.  The combination of a single step behaves as the step: it returns
    the step's candidates or throws the step's failure. *)
Theorem combineManyConverters_single (c : Converter Cost Observable Exn) d :
  combineManyConverters [c] d = c d.
Proof.
  rewrite combineManyConverters_cons.
  destruct (c d) as [l|x]; simpl; [|reflexivity].
  change (combineManyConverters (@nil (Converter Cost Observable Exn)) d)
    with (@Ok Exn _ (@nil (Entry Cost Observable))).
  simpl. now rewrite app_nil_r.
Qed.

End Runs.

(** ** The further properties at concrete inputs *)

Lemma applyConverterDataset_unique_keys_witness : Map_wf example_result.
Proof.
  exact (applyConverterDataset_unique_keys
           Z.leb CachedObservable 4 example_url example_seed example_converter
           (res := example_result) eq_refl).
Defined.

Lemma applyConverterDataset_entries_expanded_witness :
  In (input_of example_url "text/csv" (1, CachedObservable (Stream 1)))
     (invoked (applyConverterDataset Z.leb CachedObservable 4 example_url
                                     example_seed example_converter)) /\
  returns example_converter
          (input_of example_url "text/csv" (1, CachedObservable (Stream 1))).
Proof.
  exact (applyConverterDataset_entries_expanded
           Z.leb CachedObservable 4 example_url example_seed example_converter
           (res := example_result) eq_refl "text/csv" eq_refl).
Defined.

Lemma applyConverterDataset_provenance_witness :
  In ("text/csv", (1, CachedObservable (Stream 1))) example_seed \/
  offered CachedObservable example_converter
          (invoked (applyConverterDataset Z.leb CachedObservable 4 example_url
                                          example_seed example_converter))
          {| mimeType := "text/csv"; cost := 1;
             data := CachedObservable (Stream 1) |}.
Proof.
  exact (applyConverterDataset_provenance
           Z.leb CachedObservable 4 example_url example_seed example_converter
           (res := example_result) eq_refl
           "text/csv" 1 (CachedObservable (Stream 1))
           (or_intror (or_introl eq_refl))).
Defined.

Lemma applyConverterDataset_calls_origin_witness :
  url {| url := example_url; in_mimeType := "text/csv"; in_cost := 1;
         in_data := CachedObservable (Stream 1) |} = example_url /\
  origin CachedObservable example_seed example_converter
         [{| url := example_url; in_mimeType := "text/plain"; in_cost := 0;
             in_data := CachedObservable (Stream 0) |}]
         {| mimeType := "text/csv"; cost := 1;
            data := CachedObservable (Stream 1) |}.
Proof.
  exact (applyConverterDataset_calls_origin
           Z.leb CachedObservable 4 example_url example_seed example_converter
           [{| url := example_url; in_mimeType := "text/plain"; in_cost := 0;
               in_data := CachedObservable (Stream 0) |}]
           {| url := example_url; in_mimeType := "text/csv"; in_cost := 1;
              in_data := CachedObservable (Stream 1) |}
           [] eq_refl).
Defined.

Lemma applyConverterDataset_domain_witness :
  Map_has example_result "text/csv" = true <->
  (In "text/csv" (map fst example_seed) \/
   exists a candidates c,
     In a (invoked (applyConverterDataset Z.leb CachedObservable 4 example_url
                                          example_seed example_converter)) /\
     example_converter a = Ok candidates /\ In c candidates /\
     mimeType c = "text/csv").
Proof.
  exact (applyConverterDataset_domain
           Z.leb CachedObservable 4 example_url example_seed example_converter
           (res := example_result) eq_refl "text/csv").
Defined.

Lemma applyConverterDataset_calls_decrease_witness :
  invoked
    (applyConverterDataset Z.leb CachedObservable 4 example_url example_seed
       (combineManyConverters
          [png_step string "text/plain" 2 (Stream 2);
           png_step string "text/plain" 3 (Stream 1)]))
  = [{| url := example_url; in_mimeType := "text/plain"; in_cost := 0;
        in_data := CachedObservable (Stream 0) |};
     {| url := example_url; in_mimeType := "image/png"; in_cost := 3;
        in_data := CachedObservable (Stream 1) |};
     {| url := example_url; in_mimeType := "image/png"; in_cost := 2;
        in_data := CachedObservable (Stream 2) |}] /\
  ForallOrdPairs
    (cheaper_call Z.leb)
    (invoked
       (applyConverterDataset Z.leb CachedObservable 4 example_url example_seed
          (combineManyConverters
             [png_step string "text/plain" 2 (Stream 2);
              png_step string "text/plain" 3 (Stream 1)]))).
Proof.
  split; [reflexivity|].
  exact (applyConverterDataset_calls_decrease
           Z.leb CachedObservable Z_leb_total Z_leb_trans
           4 example_url example_seed
           (combineManyConverters
              [png_step string "text/plain" 2 (Stream 2);
               png_step string "text/plain" 3 (Stream 1)])).
Defined.

Lemma applyConverterDataset_covers_candidates_witness :
  exists c' h,
    Map_get example_result "text/csv" = Some (c', h) /\ Z.leb c' 1 = true.
Proof.
  exact (applyConverterDataset_covers_candidates
           Z.leb CachedObservable Z_leb_total Z_leb_trans
           4 example_url example_seed example_converter
           (res := example_result) eq_refl
           {| url := example_url; in_mimeType := "text/plain"; in_cost := 0;
              in_data := CachedObservable (Stream 0) |}
           {| mimeType := "text/csv"; cost := 1; data := Stream 1 |}
           (or_introl eq_refl) eq_refl (or_introl eq_refl)).
Defined.

Lemma applyConverterDataset_no_candidates_witness :
  applyConverterDataset Z.leb CachedObservable 3 example_url example_result
                        (combineManyConverters [] : Converter Z Handle string)
  = {| invoked :=
         [{| url := example_url; in_mimeType := "text/csv"; in_cost := 1;
             in_data := CachedObservable (Stream 1) |};
          {| url := example_url; in_mimeType := "text/plain"; in_cost := 0;
             in_data := CachedObservable (Stream 0) |}];
       completion :=
         Returned [("text/csv", (1, CachedObservable (Stream 1)));
                   ("text/plain", (0, CachedObservable (Stream 0)))] |}.
Proof.
  apply (applyConverterDataset_no_candidates
           Z.leb CachedObservable example_url
           (combineManyConverters [] : Converter Z Handle string) 0
           (seed := example_result)).
  - intros d. reflexivity.
  - repeat constructor; simpl; intuition discriminate.
Defined.

Lemma combineManyConverters_first_failure_witness :
  combineManyConverters
    [png_step string "text/plain" 3 (Stream 1);
     example_failing_converter;
     png_step string "text/csv" 2 (Stream 2)]
    {| url := example_url; in_mimeType := "text/csv"; in_cost := 1;
       in_data := CachedObservable (Stream 1) |}
  = Throw "unreadable".
Proof.
  apply (combineManyConverters_first_failure
           (before := [png_step string "text/plain" 3 (Stream 1)])
           [png_step string "text/csv" 2 (Stream 2)]
           example_failing_converter
           (d := {| url := example_url; in_mimeType := "text/csv";
                    in_cost := 1; in_data := CachedObservable (Stream 1) |})
           (lists := [[]])).
  - repeat constructor.
  - reflexivity.
Defined.

(** ** Termination over finitely many mimetypes and non-negative costs *)

Section Termination.

Local Open Scope nat_scope.
Local Open Scope list_scope.

Variable Observable : Type.
Variable CachedObservable_from : Observable -> Observable.
Variable Exn : Type.
Variable mimeTypes : list MimeType_.

Implicit Types (ds : Dataset Z Observable).
Implicit Types (st : LoopState Z Observable).

Lemma Map_has_set_eq ds key value m :
  Map_has (Map_set ds key value) m = Map_has ds m || String.eqb m key.
Proof.
  unfold Map_has. destruct (String.eqb m key) eqn:E.
  - apply String.eqb_eq in E. subst m. rewrite Map_get_set_same.
    now rewrite orb_true_r.
  - apply String.eqb_neq in E. rewrite Map_get_set_other by assumption.
    now rewrite orb_false_r.
Qed.

Lemma missing_set_le ds key value :
  missing mimeTypes (Map_set ds key value) <= missing mimeTypes ds.
Proof.
  unfold missing. induction mimeTypes as [|m ms IH]; simpl; [lia|].
  rewrite Map_has_set_eq.
  destruct (Map_has ds m), (String.eqb m key); simpl; lia.
Qed.

Lemma missing_set_fresh ds key value :
  Map_has ds key = false -> In key mimeTypes ->
  missing mimeTypes (Map_set ds key value) < missing mimeTypes ds.
Proof.
  intros Hfresh. unfold missing.
  induction mimeTypes as [|m ms IH]; simpl; [intros []|].
  intros Hin. rewrite Map_has_set_eq.
  destruct (String.eqb m key) eqn:E.
  - apply String.eqb_eq in E. subst m. rewrite Hfresh. simpl.
    clear IH Hin.
    assert (Hms : List.length
                    (filter (fun m => negb (Map_has (Map_set ds key value) m)) ms)
                  <= List.length (filter (fun m => negb (Map_has ds m)) ms)).
    { induction ms as [|m' ms' IH']; simpl; [lia|].
      rewrite Map_has_set_eq.
      destruct (Map_has ds m'), (String.eqb m' key); simpl; lia. }
    lia.
  - destruct Hin as [->|Hin]; [now rewrite String.eqb_refl in E|].
    specialize (IH Hin). rewrite orb_false_r.
    destruct (Map_has ds m); simpl; lia.
Qed.

Lemma weight_set_lower ds key (c c' : Z) h h' :
  Map_get ds key = Some (c', h') -> (0 <= c < c')%Z -> In key mimeTypes ->
  weight mimeTypes (Map_set ds key (c, h)) < weight mimeTypes ds.
Proof.
  intros Hget Hc. unfold weight.
  assert (Hle : forall ms,
    list_sum (map (fun m => match Map_get (Map_set ds key (c, h)) m with
                            | Some (c0, _) => Z.to_nat c0
                            | None => 0
                            end) ms)
    <= list_sum (map (fun m => match Map_get ds m with
                               | Some (c0, _) => Z.to_nat c0
                               | None => 0
                               end) ms)).
  { induction ms as [|m ms IH]; simpl; [lia|].
    destruct (String.eqb m key) eqn:E.
    - apply String.eqb_eq in E. subst m.
      rewrite Map_get_set_same, Hget. lia.
    - apply String.eqb_neq in E. rewrite Map_get_set_other by assumption. lia. }
  induction mimeTypes as [|m ms IH]; simpl; [intros []|].
  intros Hin. specialize (Hle ms).
  destruct (String.eqb m key) eqn:E.
  - apply String.eqb_eq in E. subst m.
    rewrite Map_get_set_same, Hget. lia.
  - apply String.eqb_neq in E. rewrite Map_get_set_other by assumption.
    destruct Hin as [->|Hin]; [contradiction|].
    specialize (IH Hin). lia.
Qed.

Lemma missing_set_present ds key value :
  Map_has ds key = true ->
  missing mimeTypes (Map_set ds key value) = missing mimeTypes ds.
Proof.
  intros Hhas. unfold missing. f_equal. apply filter_ext. intros m.
  rewrite Map_has_set_eq. destruct (String.eqb m key) eqn:E.
  - apply String.eqb_eq in E. subst m. now rewrite Hhas.
  - now rewrite orb_false_r.
Qed.

Variable u : URL_.
Variable converter : Converter Z Observable Exn.

Hypothesis converter_total : total converter.
Hypothesis candidates_bounded :
  forall d candidates c,
    converter d = Ok candidates -> In c candidates ->
    In (mimeType c) mimeTypes /\ (0 <= cost c)%Z.

Lemma while_loop_terminates : forall n1 n2 n3 st,
  (forall e, In e (toProcess st) ->
             In (mimeType e) mimeTypes /\ (0 <= cost e)%Z) ->
  missing mimeTypes (processed st) = n1 ->
  weight mimeTypes (processed st) = n2 ->
  List.length (toProcess st) = n3 ->
  exists fuel res,
    completion (while_loop Z.leb CachedObservable_from fuel u converter st)
    = Returned res.
Proof.
  induction n1 as [n1 IH1] using (well_founded_induction lt_wf).
  induction n2 as [n2 IH2] using (well_founded_induction lt_wf).
  induction n3 as [n3 IH3] using (well_founded_induction lt_wf).
  intros st Hwork Hmissing Hweight Hlength.
  assert (Hstep : forall st',
             loop_body Z.leb CachedObservable_from u converter st = Next st' ->
             (exists fuel res,
                 completion (while_loop Z.leb CachedObservable_from fuel u
                                        converter st') = Returned res) ->
             exists fuel res,
               completion (while_loop Z.leb CachedObservable_from fuel u
                                      converter st) = Returned res).
  { intros st' Hbody (fuel & res & Hrun). exists (S fuel), res.
    simpl. now rewrite Hbody. }
  destruct (loop_body Z.leb CachedObservable_from u converter st)
    as [|st'|x st'] eqn:Hbody.
  - exists 1, (processed st). simpl. now rewrite Hbody.
  - apply (Hstep st' eq_refl).
    apply loop_body_Next_inv in Hbody.
    destruct Hbody as (e & rest & Hsplit & [[_ ->]|[Hskip (cs & Hconv & ->)]]).
    + apply (IH3 (List.length rest)); simpl; auto.
      * rewrite <- Hlength, Hsplit, length_app. simpl. lia.
      * intros e' Hin. apply Hwork. rewrite Hsplit. apply in_or_app. now left.
    + assert (He : In (mimeType e) mimeTypes /\ (0 <= cost e)%Z).
      { apply Hwork. rewrite Hsplit. apply in_or_app. right. now left. }
      assert (Hwork' : forall e',
                 In e' (rest ++ map (cache CachedObservable_from) cs) ->
                 In (mimeType e') mimeTypes /\ (0 <= cost e')%Z).
      { intros e' Hin. apply in_app_or in Hin. destruct Hin as [Hin|Hin].
        - apply Hwork. rewrite Hsplit. apply in_or_app. now left.
        - apply in_map_iff in Hin. destruct Hin as (c & <- & Hin). simpl.
          eapply candidates_bounded; eauto. }
      apply already_cheaper_false in Hskip.
      destruct Hskip as [Hnone|(c' & h' & Hget & Hnle)].
      * eapply (IH1 (missing mimeTypes
                       (Map_set (processed st) (mimeType e) (cost e, data e))));
          simpl; eauto.
        rewrite <- Hmissing. apply missing_set_fresh; [|apply He].
        unfold Map_has. now rewrite Hnone.
      * eapply (IH2 (weight mimeTypes
                       (Map_set (processed st) (mimeType e) (cost e, data e))));
          simpl; eauto.
        -- rewrite <- Hweight. apply Z.leb_gt in Hnle.
           eapply weight_set_lower; eauto; [lia|apply He].
        -- rewrite <- Hmissing. apply missing_set_present.
           unfold Map_has. now rewrite Hget.
  - apply loop_body_Raise_inv in Hbody.
    destruct Hbody as (e & rest & _ & _ & Hthrow & _).
    destruct (converter_total {| url := u; in_mimeType := mimeType e;
                                 in_cost := cost e; in_data := data e |})
      as [cs Hok].
    congruence.
Qed.

(** X14.  When the converter never throws, all its candidates have a
    mimetype of a given finite list and a non-negative cost, and so have
    the entries of the seed, the call returns a dataset: some fuel is
    enough for the loop to end. *)
Theorem applyConverterDataset_terminates (seed : Dataset Z Observable) :
  (forall key c h, In (key, (c, h)) seed ->
                   In key mimeTypes /\ (0 <= c)%Z) ->
  exists fuel res,
    completion (applyConverterDataset Z.leb CachedObservable_from
                                      fuel u seed converter)
    = Returned res.
Proof.
  intros Hseed. unfold applyConverterDataset.
  eapply while_loop_terminates; try reflexivity. simpl.
  intros e Hin. unfold entries in Hin. apply in_map_iff in Hin.
  destruct Hin as ([key [c h]] & <- & Hin). simpl. eapply Hseed; eauto.
Qed.

End Termination.

Lemma applyConverterDataset_terminates_witness :
  exists fuel res,
    completion (applyConverterDataset Z.leb CachedObservable fuel example_url
                                      example_seed example_converter)
    = Returned res.
Proof.
  apply (applyConverterDataset_terminates
           CachedObservable ["text/plain"; "text/csv"] example_url
           (converter := example_converter)).
  - apply plain_csv_loop_total.
  - intros d candidates c Hconv Hin.
    unfold example_converter, plain_csv_loop in Hconv.
    destruct (String.eqb (in_mimeType d) "text/plain");
      [|destruct (String.eqb (in_mimeType d) "text/csv")];
      inversion Hconv; subst candidates; simpl in Hin;
        try contradiction; destruct Hin as [<-|[]]; simpl; split;
          auto; lia.
  - intros key c h Hin. simpl in Hin. destruct Hin as [Heq|[]].
    inversion Heq; subst. simpl. split; auto; lia.
Defined.
